(* ===================================================================== *)
(*  DoctarxAgents :: protocol core                                        *)
(*  Shallow embedding of the audit trail, the bounded-autonomy engine,    *)
(*  the A2A message bus, the daemon task queue and the orchestrator's     *)
(*  executeTask, with the properties checked against the TypeScript.      *)
(*                                                                        *)
(*  Conventions.  Objects with mutable fields are records threaded        *)
(*  through the operations.  What a method draws from its environment     *)
(*  (uuid(), new Date(), Date.now()) is an explicit argument.  Numbers    *)
(*  are integers (Z); strings are sequences of bytes, read as UTF-8 when  *)
(*  hashed.  An exception is a None or a Threw result.  Logger calls are  *)
(*  left out.                                                             *)
(* ===================================================================== *)

From Stdlib Require Import ZArith List String Ascii Bool Lia.
From Stdlib Require Import DecimalString Sorted.
From stdpp Require Import gmap strings.
Import ListNotations.

Local Open Scope Z_scope.

(* --------------------------------------------------------------------- *)
(*  SHA-256 (FIPS 180-4), the digest behind createHash('sha256').         *)
(*  Words are Z values below 2^32, every addition wraps explicitly.       *)
(* --------------------------------------------------------------------- *)

Module Sha256.

Definition mask32 : Z := 4294967295.

Definition add32 (x y : Z) : Z := Z.land (x + y) mask32.

Definition rotr (n x : Z) : Z :=
  Z.lor (Z.shiftr x n) (Z.land (Z.shiftl x (32 - n)) mask32).

Definition not32 (x : Z) : Z := Z.lxor x mask32.

Definition Ch (x y z : Z) : Z := Z.lxor (Z.land x y) (Z.land (not32 x) z).
Definition Maj (x y z : Z) : Z :=
  Z.lxor (Z.lxor (Z.land x y) (Z.land x z)) (Z.land y z).
Definition bsig0 (x : Z) : Z := Z.lxor (Z.lxor (rotr 2 x) (rotr 13 x)) (rotr 22 x).
Definition bsig1 (x : Z) : Z := Z.lxor (Z.lxor (rotr 6 x) (rotr 11 x)) (rotr 25 x).
Definition ssig0 (x : Z) : Z := Z.lxor (Z.lxor (rotr 7 x) (rotr 18 x)) (Z.shiftr x 3).
Definition ssig1 (x : Z) : Z := Z.lxor (Z.lxor (rotr 17 x) (rotr 19 x)) (Z.shiftr x 10).

(* The round constants are the first 32 fractional bits of the cube roots
   of the first sixty-four primes, the initial state those of the square
   roots of the first eight; both tables are computed, not transcribed. *)
Definition primes64 : list Z :=
  [2; 3; 5; 7; 11; 13; 17; 19; 23; 29; 31; 37; 41; 43; 47; 53;
   59; 61; 67; 71; 73; 79; 83; 89; 97; 101; 103; 107; 109; 113; 127; 131;
   137; 139; 149; 151; 157; 163; 167; 173; 179; 181; 191; 193; 197; 199; 211; 223;
   227; 229; 233; 239; 241; 251; 257; 263; 269; 271; 277; 281; 283; 293; 307; 311]%Z.

(* Largest r (built bit by bit from bit [bits-1] down) with r^3 <= n. *)
Fixpoint icbrt (bits : nat) (n acc : Z) : Z :=
  match bits with
  | O => acc
  | S b =>
      let c := acc + 2 ^ Z.of_nat b in
      if c * c * c <=? n then icbrt b n c else icbrt b n acc
  end.

Definition frac_cbrt (p : Z) : Z := Z.land (icbrt 36 (p * 2 ^ 96) 0) mask32.
Definition frac_sqrt (p : Z) : Z := Z.land (Z.sqrt (p * 2 ^ 64)) mask32.

Definition K : list Z := Eval vm_compute in List.map frac_cbrt primes64.
Definition H0 : list Z := Eval vm_compute in List.map frac_sqrt (firstn 8 primes64).

(* Message padding: 0x80, zeros up to 56 mod 64, 64-bit big-endian bit length. *)
Definition be_bytes (n : nat) (x : Z) : list Z :=
  List.map (fun i => Z.land (Z.shiftr x (8 * Z.of_nat i)) 255) (rev (seq 0 n)).

Definition pad (msg : list Z) : list Z :=
  let len := Z.of_nat (List.length msg) in
  let k := Z.to_nat ((55 - len) mod 64) in
  msg ++ [128] ++ repeat 0 k ++ be_bytes 8 (8 * len).

Fixpoint be_words (fuel : nat) (bs : list Z) : list Z :=
  match fuel, bs with
  | S f, b0 :: b1 :: b2 :: b3 :: rest =>
      (b0 * 16777216 + b1 * 65536 + b2 * 256 + b3) :: be_words f rest
  | _, _ => []
  end.

Fixpoint chunks16 (fuel : nat) (ws : list Z) : list (list Z) :=
  match fuel, ws with
  | S f, _ :: _ => firstn 16 ws :: chunks16 f (skipn 16 ws)
  | _, _ => []
  end.

(* Message schedule: grow the sixteen block words to sixty-four. *)
Fixpoint schedule (n : nat) (ws : list Z) : list Z :=
  match n with
  | O => ws
  | S n' =>
      let t := List.length ws in
      let at_ (d : nat) := nth (t - d) ws 0 in
      let nw := add32 (add32 (ssig1 (at_ 2%nat)) (at_ 7%nat))
                      (add32 (ssig0 (at_ 15%nat)) (at_ 16%nat)) in
      schedule n' (ws ++ [nw])
  end.

Record regs := Regs { ra : Z; rb : Z; rc : Z; rd : Z; re : Z; rf : Z; rg : Z; rh : Z }.

Definition round (s : regs) (kw : Z * Z) : regs :=
  let t1 := add32 (add32 (add32 (rh s) (bsig1 (re s)))
                         (add32 (Ch (re s) (rf s) (rg s)) (fst kw))) (snd kw) in
  let t2 := add32 (bsig0 (ra s)) (Maj (ra s) (rb s) (rc s)) in
  Regs (add32 t1 t2) (ra s) (rb s) (rc s) (add32 (rd s) t1) (re s) (rf s) (rg s).

Definition compress (h : regs) (block : list Z) : regs :=
  let s := fold_left round (combine K (schedule 48 block)) h in
  Regs (add32 (ra h) (ra s)) (add32 (rb h) (rb s)) (add32 (rc h) (rc s))
       (add32 (rd h) (rd s)) (add32 (re h) (re s)) (add32 (rf h) (rf s))
       (add32 (rg h) (rg s)) (add32 (rh h) (rh s)).

Definition init : regs :=
  Regs (nth 0 H0 0) (nth 1 H0 0) (nth 2 H0 0) (nth 3 H0 0)
       (nth 4 H0 0) (nth 5 H0 0) (nth 6 H0 0) (nth 7 H0 0).

Definition digest_words (msg : list Z) : list Z :=
  let p := pad msg in
  let ws := be_words (List.length p) p in
  let s := fold_left compress (chunks16 (List.length ws) ws) init in
  [ra s; rb s; rc s; rd s; re s; rf s; rg s; rh s].

Definition hex_digit (d : Z) : ascii :=
  nth (Z.to_nat d)
      (list_ascii_of_string "0123456789abcdef") "0"%char.

Definition hex_word (x : Z) : string :=
  string_of_list_ascii
    (List.map (fun i => hex_digit (Z.land (Z.shiftr x (4 * Z.of_nat i)) 15))
              (rev (seq 0 8))).

Definition bytes_of_string (s : string) : list Z :=
  List.map (fun c => Z.of_nat (nat_of_ascii c)) (list_ascii_of_string s).

(* createHash('sha256').update(s).digest('hex'), [s] read as its UTF-8 bytes *)
Definition sha256_hex (s : string) : string :=
  String.concat "" (List.map hex_word (digest_words (bytes_of_string s))).

End Sha256.

Arguments Sha256.sha256_hex : simpl never.

(* --------------------------------------------------------------------- *)
(*  JavaScript built-ins used by the protocols                            *)
(* --------------------------------------------------------------------- *)

Module Js.

(* `${n}` for an integral number (below 1e21 JavaScript prints plain decimal) *)
Definition string_of_Z (n : Z) : string := NilZero.string_of_int (Z.to_int n).

(* String.prototype.repeat *)
Fixpoint repeat_string (s : string) (n : nat) : string :=
  match n with
  | O => ""
  | S n' => s +:+ repeat_string s n'
  end.

(* Array.prototype.slice(0, limit): a negative limit counts from the end *)
Definition slice0 {A} (limit : Z) (l : list A) : list A :=
  if 0 <=? limit then firstn (Z.to_nat limit) l
  else firstn (List.length l - Z.to_nat (- limit)) l.

(* Array.prototype.slice(-n) for a positive n: the last n elements *)
Definition slice_last {A} (n : Z) (l : list A) : list A :=
  skipn (Z.to_nat (Z.of_nat (List.length l) - n)) l.

(* The property names every object literal inherits from Object.prototype:
   indexing a literal by one of them yields the inherited member, not
   undefined. *)
Definition object_prototype_members : list string :=
  [ "constructor"; "__defineGetter__"; "__defineSetter__"; "hasOwnProperty";
    "__lookupGetter__"; "__lookupSetter__"; "isPrototypeOf";
    "propertyIsEnumerable"; "toString"; "valueOf"; "__proto__";
    "toLocaleString" ].

Definition inherited (k : string) : bool :=
  existsb (String.eqb k) object_prototype_members.

(* String(v) of the member v inherited under k: a built-in function, named
   Object under constructor; __proto__ reads Object.prototype itself. *)
Definition string_of_member (k : string) : string :=
  if String.eqb k "__proto__" then "[object Object]"
  else "function " +:+ (if String.eqb k "constructor" then "Object" else k)
       +:+ "() { [native code] }".

End Js.

(* JSON values and JSON.stringify (no undefined members, integral numbers) *)
Module Json.

#[local] Unset Elimination Schemes.
Inductive json : Type :=
| JNull
| JBool (b : bool)
| JNum (n : Z)
| JStr (s : string)
| JArr (items : list json)
| JObj (members : list (string * json)).
#[local] Set Elimination Schemes.

(* a JavaScript object literal: members in insertion order *)
Definition object : Type := list (string * json).

Definition hex4 (n : nat) : string :=
  String "0" (String "0"
    (String (Sha256.hex_digit (Z.of_nat (n / 16)))
       (String (Sha256.hex_digit (Z.of_nat (n mod 16))) ""))).

Definition dquote : ascii := ascii_of_nat 34.

Definition escape_char (c : ascii) : string :=
  let n := nat_of_ascii c in
  if (n =? 34)%nat then String "\" (String dquote "")
  else if (n =? 92)%nat then "\\"
  else if (n =? 8)%nat then "\b"
  else if (n =? 9)%nat then "\t"
  else if (n =? 10)%nat then "\n"
  else if (n =? 12)%nat then "\f"
  else if (n =? 13)%nat then "\r"
  else if (n <? 32)%nat then "\u" +:+ hex4 n
  else String c "".

Fixpoint escape (s : string) : string :=
  match s with
  | EmptyString => ""
  | String c rest => escape_char c +:+ escape rest
  end.

Definition quote (s : string) : string :=
  String dquote (escape s +:+ String dquote "").

Fixpoint stringify (j : json) : string :=
  match j with
  | JNull => "null"
  | JBool true => "true"
  | JBool false => "false"
  | JNum n => Js.string_of_Z n
  | JStr s => quote s
  | JArr items =>
      "[" +:+ (fix go (l : list json) : string :=
                match l with
                | [] => ""
                | x :: nil => stringify x
                | x :: r => stringify x +:+ "," +:+ go r
                end) items +:+ "]"
  | JObj members =>
      "{" +:+ (fix go (l : list (string * json)) : string :=
                match l with
                | [] => ""
                | (k, v) :: nil => quote k +:+ ":" +:+ stringify v
                | (k, v) :: r => quote k +:+ ":" +:+ stringify v +:+ "," +:+ go r
                end) members +:+ "}"
  end.

(* obj[k] = v on an object: replaces in place or appends *)
Fixpoint set_member (k : string) (v : json) (o : object) : object :=
  match o with
  | [] => [(k, v)]
  | (k', v') :: r => if String.eqb k' k then (k, v) :: r else (k', v') :: set_member k v r
  end.

End Json.

(* --------------------------------------------------------------------- *)
(*  A stable sort by an integer key: ORDER BY on a unique column and      *)
(*  Array.prototype.sort with a comparator key(a) - key(b).               *)
(* --------------------------------------------------------------------- *)

Section StableSort.
Context {A : Type} (key : A -> Z).

Fixpoint insert_by (x : A) (l : list A) : list A :=
  match l with
  | [] => [x]
  | y :: l' => if key x <=? key y then x :: l else y :: insert_by x l'
  end.

Definition stable_sort (l : list A) : list A := fold_right insert_by [] l.
End StableSort.

(* --------------------------------------------------------------------- *)
(*  protocols/audit-trail.ts                                              *)
(* --------------------------------------------------------------------- *)

Module AuditTrail.

(* A row of the audit_trail table, one field per column. *)
Module Row.
Record t : Type := mk {
  id : string;
  sequence_number : Z;
  timestamp : string;
  actor : string;
  action : string;
  target : string;
  details : string;
  previous_hash : string;
  hash : string
}.
End Row.

(* The table: rows in insertion order.  id is the PRIMARY KEY and
   sequence_number is UNIQUE, so an INSERT that repeats either one throws. *)
Definition table : Type := list Row.t.

Definition violates_constraints (rows : table) (r : Row.t) : bool :=
  existsb (fun x => String.eqb (Row.id x) (Row.id r)
                    || (Row.sequence_number x =? Row.sequence_number r)) rows.

Definition db_insert (rows : table) (r : Row.t) : option table :=
  if violates_constraints rows r then None else Some (rows ++ [r]).

(* SELECT * FROM audit_trail ORDER BY sequence_number ASC *)
Definition select_all_asc (rows : table) : table :=
  stable_sort Row.sequence_number rows.

(* SELECT sequence_number, hash ... ORDER BY sequence_number DESC LIMIT 1 *)
Definition select_last (rows : table) : option Row.t :=
  hd_error (rev (select_all_asc rows)).

(* UPDATE audit_trail SET <column> = <value> WHERE sequence_number = k,
   issued on the database from outside the ledger *)
Definition db_update (k : Z) (f : Row.t -> Row.t) (rows : table) : table :=
  List.map (fun r => if Row.sequence_number r =? k then f r else r) rows.

Record AuditEntry : Type := {
  id : string;
  sequenceNumber : Z;
  timestamp : string;            (* the Date, as its toISOString() *)
  actor : string;
  action : string;
  target : string;
  details : Json.object;
  previousHash : string;
  hash : string
}.

(* The ledger object together with the database it writes to. *)
Record AuditTrail : Type := {
  db : table;
  sequenceCounter : Z;
  lastHash : string
}.

Definition genesis : string := Js.repeat_string "0" 64.

Definition constructor (rows : table) : AuditTrail :=
  match select_last rows with
  | Some last => {| db := rows; sequenceCounter := Row.sequence_number last;
                    lastHash := Row.hash last |}
  | None => {| db := rows; sequenceCounter := 0; lastHash := genesis |}
  end.

(* The template literal hashed by record and by verifyChain. *)
Definition payload (prev : string) (seq : Z) (ts actor action target details : string)
  : string :=
  prev +:+ "|" +:+ Js.string_of_Z seq +:+ "|" +:+ ts +:+ "|" +:+ actor +:+ "|"
       +:+ action +:+ "|" +:+ target +:+ "|" +:+ details.

Definition row_payload (r : Row.t) : string :=
  payload (Row.previous_hash r) (Row.sequence_number r) (Row.timestamp r)
          (Row.actor r) (Row.action r) (Row.target r) (Row.details r).

(* What one call of record receives: its four arguments, the uuid() drawn
   for the entry and the clock reading new Date().toISOString(). *)
Record call : Type := {
  c_uuid : string;
  c_now : string;
  c_actor : string;
  c_action : string;
  c_target : string;
  c_details : Json.object
}.

Definition entry_of (st : AuditTrail) (c : call) : AuditEntry :=
  let seq := sequenceCounter st + 1 in
  let p := payload (lastHash st) seq (c_now c) (c_actor c) (c_action c) (c_target c)
                   (Json.stringify (Json.JObj (c_details c))) in
  {| id := c_uuid c; sequenceNumber := seq; timestamp := c_now c;
     actor := c_actor c; action := c_action c; target := c_target c;
     details := c_details c; previousHash := lastHash st;
     hash := Sha256.sha256_hex p |}.

Definition row_of (e : AuditEntry) : Row.t :=
  Row.mk (id e) (sequenceNumber e) (timestamp e) (actor e) (action e) (target e)
         (Json.stringify (Json.JObj (details e))) (previousHash e) (hash e).

(* record: the counter is advanced first; when the INSERT throws the call
   returns no entry and lastHash keeps its value. *)
Definition record (st : AuditTrail) (c : call) : AuditTrail * option AuditEntry :=
  let e := entry_of st c in
  match db_insert (db st) (row_of e) with
  | Some rows' =>
      ({| db := rows'; sequenceCounter := sequenceNumber e; lastHash := hash e |}, Some e)
  | None =>
      ({| db := db st; sequenceCounter := sequenceNumber e; lastHash := lastHash st |}, None)
  end.

Definition run (st : AuditTrail) (cs : list call) : AuditTrail :=
  fold_left (fun s c => fst (record s c)) cs st.

Record VerifyResult : Type := {
  valid : bool;
  brokenAt : option Z;
  totalEntries : nat
}.

(* the for-loop of verifyChain over the remaining rows *)
Fixpoint verify_rows (total : nat) (previousHash : string) (rows : table) : VerifyResult :=
  match rows with
  | [] => {| valid := true; brokenAt := None; totalEntries := total |}
  | row :: rest =>
      if negb (String.eqb (Row.previous_hash row) previousHash) then
        {| valid := false; brokenAt := Some (Row.sequence_number row);
           totalEntries := total |}
      else if negb (String.eqb (Row.hash row) (Sha256.sha256_hex (row_payload row))) then
        {| valid := false; brokenAt := Some (Row.sequence_number row);
           totalEntries := total |}
      else verify_rows total (Row.hash row) rest
  end.

Definition verifyChain (st : AuditTrail) : VerifyResult :=
  let rows := select_all_asc (db st) in
  match rows with
  | [] => {| valid := true; brokenAt := None; totalEntries := 0 |}
  | _ => verify_rows (List.length rows) genesis rows
  end.

(* One altered column of one row. *)
Inductive alteration : Type :=
| SetSequenceNumber (n : Z)
| SetTimestamp (v : string)
| SetActor (v : string)
| SetAction (v : string)
| SetTarget (v : string)
| SetDetails (v : string)
| SetPreviousHash (v : string).

Definition alter (a : alteration) (r : Row.t) : Row.t :=
  match r with
  | Row.mk i n ts ac an tg d ph h =>
      match a with
      | SetSequenceNumber v => Row.mk i v ts ac an tg d ph h
      | SetTimestamp v => Row.mk i n v ac an tg d ph h
      | SetActor v => Row.mk i n ts v an tg d ph h
      | SetAction v => Row.mk i n ts ac v tg d ph h
      | SetTarget v => Row.mk i n ts ac an v d ph h
      | SetDetails v => Row.mk i n ts ac an tg v ph h
      | SetPreviousHash v => Row.mk i n ts ac an tg d v h
      end
  end.

Definition keeps_sequence (a : alteration) : bool :=
  match a with SetSequenceNumber _ => false | _ => true end.

(* the ledger seen after an outside UPDATE of the row numbered k *)
Definition tamper (k : Z) (a : alteration) (st : AuditTrail) : AuditTrail :=
  {| db := db_update k (alter a) (db st);
     sequenceCounter := sequenceCounter st; lastHash := lastHash st |}.

(* the largest persisted sequence number, 0 for an empty table *)
Definition persisted_max (rows : table) : Z :=
  match rows with
  | [] => 0
  | r :: rest => fold_left (fun m x => Z.max m (Row.sequence_number x)) rest
                           (Row.sequence_number r)
  end.

End AuditTrail.

Module AuditScenario.
Import AuditTrail.

Definition c1 : call :=
  {| c_uuid := "e1"; c_now := "2026-01-01T00:00:00.000Z"; c_actor := "system";
     c_action := "boot"; c_target := "app"; c_details := [] |}.
Definition c2 : call :=
  {| c_uuid := "e2"; c_now := "2026-01-01T00:00:01.000Z"; c_actor := "a1";
     c_action := "task_start"; c_target := "t1"; c_details := [] |}.
Definition c3 : call :=
  {| c_uuid := "e3"; c_now := "2026-01-01T00:00:02.000Z"; c_actor := "a2";
     c_action := "tool_invoke"; c_target := "search";
     c_details := [("query", Json.JStr "test")] |}.

Definition ledger : AuditTrail := run (constructor []) [c1; c2; c3].
End AuditScenario.


(* --------------------------------------------------------------------- *)
(*  protocols/bounded-autonomy.ts                                         *)
(* --------------------------------------------------------------------- *)

Module BoundedAutonomy.

Inductive RiskLevel : Type := low | medium | high | critical.
Inductive AuthorityLevel : Type :=
  auto_approve | log_only | require_approval | require_human.

Definition RiskLevel_eqb (a b : RiskLevel) : bool :=
  match a, b with
  | low, low | medium, medium | high, high | critical, critical => true
  | _, _ => false
  end.

Definition AuthorityLevel_eqb (a b : AuthorityLevel) : bool :=
  match a, b with
  | auto_approve, auto_approve | log_only, log_only
  | require_approval, require_approval | require_human, require_human => true
  | _, _ => false
  end.

(* The fields of ToolDefinition the engine reads. *)
Record ToolDefinition : Type := {
  name : string;
  requiresApproval : bool;
  riskLevel : RiskLevel
}.

Module Policy.
Record t : Type := mk {
  riskLevel : RiskLevel;
  authority : AuthorityLevel;
  maxAutoApproveValue : option Z;
  auditRequired : bool
}.
End Policy.

Record Decision : Type := {
  timestamp : Z;
  tool : string;
  decision : AuthorityLevel;
  reason : string
}.

Record Engine : Type := {
  policies : list Policy.t;
  overrides : gmap string AuthorityLevel;
  auditLog : list Decision
}.

Definition constructor : Engine :=
  {| policies :=
       [ Policy.mk critical require_human None true;
         Policy.mk high require_approval None true;
         Policy.mk medium log_only None true;
         Policy.mk low auto_approve None false ];
     overrides := ∅;
     auditLog := [] |}.

(* this.policies.find(p => p.riskLevel === tool.riskLevel) *)
Definition find_policy (e : Engine) (t : ToolDefinition) : option Policy.t :=
  List.find (fun p => RiskLevel_eqb (Policy.riskLevel p) (riskLevel t)) (policies e).

Definition getAuthority (e : Engine) (t : ToolDefinition) : AuthorityLevel :=
  match overrides e !! name t with
  | Some override => override
  | None =>
      if requiresApproval t then
        (if RiskLevel_eqb (riskLevel t) critical then require_human else require_approval)
      else
        match find_policy e t with
        | Some p => Policy.authority p
        | None => require_approval
        end
  end.

Definition canAutoExecute (e : Engine) (t : ToolDefinition) : bool :=
  let authority := getAuthority e t in
  AuthorityLevel_eqb authority auto_approve || AuthorityLevel_eqb authority log_only.

Definition requiresAudit (e : Engine) (t : ToolDefinition) : bool :=
  if requiresApproval t then true
  else match find_policy e t with
       | Some p => Policy.auditRequired p
       | None => true
       end.

Definition recordDecision (e : Engine) (now : Z) (t : ToolDefinition)
    (d : AuthorityLevel) (why : string) : Engine :=
  let log := auditLog e ++ [ {| timestamp := now; tool := name t;
                                decision := d; reason := why |} ] in
  {| policies := policies e;
     overrides := overrides e;
     auditLog := if 10000 <? Z.of_nat (List.length log)
                 then Js.slice_last 5000 log else log |}.

Definition setOverride (e : Engine) (toolName : string) (a : AuthorityLevel) : Engine :=
  {| policies := policies e;
     overrides := <[toolName := a]> (overrides e);
     auditLog := auditLog e |}.

Definition removeOverride (e : Engine) (toolName : string) : Engine :=
  {| policies := policies e;
     overrides := delete toolName (overrides e);
     auditLog := auditLog e |}.

Definition setPolicies (e : Engine) (ps : list Policy.t) : Engine :=
  {| policies := ps; overrides := overrides e; auditLog := auditLog e |}.

(* policy?.maxAutoApproveValue as a condition: undefined and 0 are falsy *)
Definition threshold_truthy (p : option Policy.t) : option Z :=
  match p with
  | Some q =>
      match Policy.maxAutoApproveValue q with
      | Some v => if v =? 0 then None else Some v
      | None => None
      end
  | None => None
  end.

Definition escalate (base : AuthorityLevel) : AuthorityLevel :=
  if AuthorityLevel_eqb base auto_approve then require_approval else require_human.

Definition validateValueThreshold (e : Engine) (now : Z) (t : ToolDefinition)
    (estimatedValue : Z) : Engine * AuthorityLevel :=
  let baseAuthority := getAuthority e t in
  match threshold_truthy (find_policy e t) with
  | Some limit =>
      if limit <? estimatedValue then
        let escalated := escalate baseAuthority in
        (recordDecision e now t escalated
           ("Value threshold exceeded: $" +:+ Js.string_of_Z estimatedValue),
         escalated)
      else (e, baseAuthority)
  | None => (e, baseAuthority)
  end.

(* The public mutators, for talking about every state the engine can reach. *)
Inductive op : Type :=
| OpSetOverride (toolName : string) (a : AuthorityLevel)
| OpRemoveOverride (toolName : string)
| OpSetPolicies (ps : list Policy.t)
| OpRecordDecision (now : Z) (t : ToolDefinition) (d : AuthorityLevel) (why : string)
| OpValidateValueThreshold (now : Z) (t : ToolDefinition) (estimatedValue : Z).

Definition step (e : Engine) (o : op) : Engine :=
  match o with
  | OpSetOverride n a => setOverride e n a
  | OpRemoveOverride n => removeOverride e n
  | OpSetPolicies ps => setPolicies e ps
  | OpRecordDecision now t d why => recordDecision e now t d why
  | OpValidateValueThreshold now t v => fst (validateValueThreshold e now t v)
  end.

Definition reach (ops : list op) : Engine := fold_left step ops constructor.

(* s.includes(sub) *)
Fixpoint includes (s sub : string) : bool :=
  String.prefix sub s
  || match s with
     | EmptyString => false
     | String _ rest => includes rest sub
     end.

End BoundedAutonomy.

(* --------------------------------------------------------------------- *)
(*  protocols/a2a.ts                                                      *)
(* --------------------------------------------------------------------- *)

Module A2A.

Inductive MessageType : Type := request | response | broadcast_type.

Record A2AMessage : Type := {
  id : string;
  fromAgent : string;
  toAgent : string;
  type : MessageType;
  payload : Json.object;
  timestamp : Z;                 (* timestamp.getTime(), milliseconds *)
  ttl : Z
}.

Inductive Event : Type :=
| a2a_received (m : A2AMessage)
| a2a_broadcast (m : A2AMessage)
| a2a_expired (m : A2AMessage).

(* queues is a Map (keys in insertion order), acknowledged a Set (members in
   insertion order); emitted is the trace of events, oldest first. *)
Record A2AProtocol : Type := {
  queues : list (string * list A2AMessage);
  acknowledged : list string;
  emitted : list Event
}.

Definition constructor : A2AProtocol :=
  {| queues := []; acknowledged := []; emitted := [] |}.

Section MapOps.
Context {V : Type}.

Fixpoint map_get (k : string) (m : list (string * V)) : option V :=
  match m with
  | [] => None
  | (k', v) :: r => if String.eqb k' k then Some v else map_get k r
  end.

Definition map_has (k : string) (m : list (string * V)) : bool :=
  match map_get k m with Some _ => true | None => false end.

(* Map.prototype.set: an existing key keeps its place *)
Fixpoint map_set (k : string) (v : V) (m : list (string * V)) : list (string * V) :=
  match m with
  | [] => [(k, v)]
  | (k', v') :: r => if String.eqb k' k then (k, v) :: r else (k', v') :: map_set k v r
  end.
End MapOps.

Definition set_has (x : string) (s : list string) : bool :=
  existsb (String.eqb x) s.

(* Set.prototype.add *)
Definition set_add (x : string) (s : list string) : list string :=
  if set_has x s then s else s ++ [x].

(* if (!queues.has(a)) queues.set(a, []); queues.get(a).push(m) *)
Definition push_to (a : string) (m : A2AMessage) (qs : list (string * list A2AMessage))
  : list (string * list A2AMessage) :=
  match map_get a qs with
  | Some q => map_set a (q ++ [m]) qs
  | None => map_set a [m] qs
  end.

Definition send (st : A2AProtocol) (uuid : string) (now : Z)
    (from to : string) (body : Json.object) (ttl_ : Z) : A2AProtocol * A2AMessage :=
  let msg := {| id := uuid; fromAgent := from; toAgent := to; type := request;
                payload := body; timestamp := now; ttl := ttl_ |} in
  ({| queues := push_to to msg (queues st);
      acknowledged := acknowledged st;
      emitted := emitted st ++ [a2a_received msg] |}, msg).

Definition acknowledge (st : A2AProtocol) (msgId : string) : A2AProtocol :=
  {| queues := queues st;
     acknowledged := set_add msgId (acknowledged st);
     emitted := emitted st |}.

(* the for-of over queues.values() with queue.find(m => m.id === originalMsgId) *)
Fixpoint find_original (originalMsgId : string) (qs : list (string * list A2AMessage))
  : option A2AMessage :=
  match qs with
  | [] => None
  | (_, q) :: r =>
      match List.find (fun m => String.eqb (id m) originalMsgId) q with
      | Some original => Some original
      | None => find_original originalMsgId r
      end
  end.

Definition respond (st : A2AProtocol) (originalMsgId uuid : string) (now : Z)
    (from : string) (body : Json.object) (ttl_ : Z)
  : A2AProtocol * option A2AMessage :=
  match find_original originalMsgId (queues st) with
  | Some original =>
      let reply := {| id := uuid; fromAgent := from; toAgent := fromAgent original;
                      type := response;
                      payload := Json.set_member "inReplyTo" (Json.JStr originalMsgId) body;
                      timestamp := now; ttl := ttl_ |} in
      (acknowledge {| queues := push_to (fromAgent original) reply (queues st);
                      acknowledged := acknowledged st;
                      emitted := emitted st |} originalMsgId,
       Some reply)
  | None => (st, None)
  end.

Definition broadcast (st : A2AProtocol) (uuid : string) (now : Z)
    (from : string) (body : Json.object) (ttl_ : Z) : A2AProtocol * A2AMessage :=
  let msg := {| id := uuid; fromAgent := from; toAgent := "*"; type := broadcast_type;
                payload := body; timestamp := now; ttl := ttl_ |} in
  ({| queues := List.map (fun kq : string * list A2AMessage =>
                            if negb (String.eqb (fst kq) from)
                            then (fst kq, snd kq ++ [msg]) else kq) (queues st);
      acknowledged := acknowledged st;
      emitted := emitted st ++ [a2a_broadcast msg] |}, msg).

Definition is_expired (now : Z) (m : A2AMessage) : bool := ttl m <=? now - timestamp m.

Definition receive (st : A2AProtocol) (agentId : string) (limit now : Z)
  : list A2AMessage :=
  let queue := match map_get agentId (queues st) with Some q => q | None => [] end in
  Js.slice0 limit
    (List.filter (fun m => now - timestamp m <? ttl m)
       (List.filter (fun m => negb (set_has (id m) (acknowledged st))) queue)).

Definition consume (st : A2AProtocol) (agentId : string) (limit now : Z)
  : A2AProtocol * list A2AMessage :=
  let messages := receive st agentId limit now in
  (fold_left (fun s m => acknowledge s (id m)) messages st, messages).

Definition registerAgent (st : A2AProtocol) (agentId : string) : A2AProtocol :=
  if map_has agentId (queues st) then st
  else {| queues := map_set agentId [] (queues st);
          acknowledged := acknowledged st;
          emitted := emitted st |}.

Definition getQueueDepth (st : A2AProtocol) (agentId : string) : nat :=
  let queue := match map_get agentId (queues st) with Some q => q | None => [] end in
  List.length (List.filter (fun m => negb (set_has (id m) (acknowledged st))) queue).

Definition getRegisteredAgents (st : A2AProtocol) : list string :=
  List.map fst (queues st).

(* purgeExpired: every queue is filtered in Map order; the filter callback
   emits a2a:expired for each message it drops. *)
Definition purgeExpired (st : A2AProtocol) (now : Z) : A2AProtocol :=
  let dropped :=
    List.concat (List.map (fun kq : string * list A2AMessage =>
                             List.filter (is_expired now) (snd kq)) (queues st)) in
  {| queues := List.map (fun kq : string * list A2AMessage =>
                           (fst kq, List.filter (fun m => negb (is_expired now m)) (snd kq)))
                        (queues st);
     acknowledged := if 5000 <? Z.of_nat (List.length (acknowledged st))
                     then Js.slice_last 2500 (acknowledged st)
                     else acknowledged st;
     emitted := emitted st ++ List.map a2a_expired dropped |}.

Definition destroy (st : A2AProtocol) : A2AProtocol :=
  {| queues := []; acknowledged := []; emitted := emitted st |}.

(* The operations that keep the bus alive (everything but destroy), each
   with the uuid and clock reading it draws. *)
Inductive op : Type :=
| OpSend (uuid : string) (now : Z) (from to : string) (body : Json.object) (ttl_ : Z)
| OpRespond (originalMsgId uuid : string) (now : Z) (from : string)
            (body : Json.object) (ttl_ : Z)
| OpBroadcast (uuid : string) (now : Z) (from : string) (body : Json.object) (ttl_ : Z)
| OpConsume (agentId : string) (limit now : Z)
| OpAcknowledge (msgId : string)
| OpRegisterAgent (agentId : string)
| OpPurgeExpired (now : Z).

Definition step (st : A2AProtocol) (o : op) : A2AProtocol :=
  match o with
  | OpSend u now f t b l => fst (send st u now f t b l)
  | OpRespond o' u now f b l => fst (respond st o' u now f b l)
  | OpBroadcast u now f b l => fst (broadcast st u now f b l)
  | OpConsume a limit now => fst (consume st a limit now)
  | OpAcknowledge i => acknowledge st i
  | OpRegisterAgent a => registerAgent st a
  | OpPurgeExpired now => purgeExpired st now
  end.

Definition run (st : A2AProtocol) (ops : list op) : A2AProtocol := fold_left step ops st.

(* the uuid an operation draws for the message it creates *)
Definition op_uuid (o : op) : option string :=
  match o with
  | OpSend u _ _ _ _ _ | OpRespond _ u _ _ _ _ | OpBroadcast u _ _ _ _ => Some u
  | _ => None
  end.

Definition draws_other (i : string) (o : op) : Prop := op_uuid o <> Some i.

(* how many mailbox slots hold the message with this id *)
Definition slots (i : string) (st : A2AProtocol) : nat :=
  List.length (List.filter (fun m => String.eqb (id m) i)
                 (List.concat (List.map snd (queues st)))).

(* how many a2a:expired events were emitted for the message with this id *)
Definition expirations (i : string) (st : A2AProtocol) : nat :=
  List.length (List.filter (fun e => match e with
                                     | a2a_expired m => String.eqb (id m) i
                                     | _ => false
                                     end) (emitted st)).

End A2A.

(* --------------------------------------------------------------------- *)
(*  core/types.ts: the task types shared by the daemon and orchestrator   *)
(* --------------------------------------------------------------------- *)

Module Types.

Inductive TaskPriority : Type := critical | high | medium | low.

Record TaskResult : Type := {
  success : bool;
  output : Json.json;
  tokensUsed : Z;
  executionTimeMs : Z;
  subTasksSpawned : list string;
  errors : list string
}.

(* TaskType and AgentRole are unions of string literals, which nothing
   checks at run time: a task type is whatever string arrives, and a value
   typed AgentRole is a role string or, when it was read from an object
   literal under a name the literal inherits from Object.prototype, that
   inherited member (a function or object, never equal to a string). *)
Inductive AgentRole : Type :=
| RoleName (s : string)
| InheritedMember (key : string).

Coercion RoleName : string >-> AgentRole.

Record Task : Type := {
  id : string;
  type : string;
  priority : TaskPriority;
  title : string;
  description : string;
  assignedAgent : option AgentRole;
  payload : Json.object;
  dependencies : list string;
  createdAt : Z;
  startedAt : option Z;
  completedAt : option Z;
  result : option TaskResult
}.

End Types.

(* --------------------------------------------------------------------- *)
(*  DaemonLoop: enqueueTask and processQueue                              *)
(* --------------------------------------------------------------------- *)

Module Daemon.
Import Types.

Definition priorityOrder (p : TaskPriority) : Z :=
  match p with critical => 0 | high => 1 | medium => 2 | low => 3 end.

(* taskQueue.sort((a, b) => priorityOrder[a...] - priorityOrder[b...]);
   Array.prototype.sort is stable *)
Definition sort_queue (q : list Task) : list Task :=
  stable_sort (fun t => priorityOrder (priority t)) q.

(* The queue state between two turns of the event loop.  processQueue is an
   async function: it runs synchronously up to its await on executeTask and
   resumes when that promise settles.  inflight is the task it is suspended
   on, handed the tasks passed to executeTask so far, oldest first. *)
Record DaemonLoop : Type := {
  taskQueue : list Task;
  processing : bool;
  inflight : option Task;
  handed : list Task
}.

Definition idle : DaemonLoop :=
  {| taskQueue := []; processing := false; inflight := None; handed := [] |}.

(* One pass from the while test to the await: sort, shift, call executeTask;
   with an empty queue the loop ends and processing is cleared. *)
Definition loop_head (d : DaemonLoop) : DaemonLoop :=
  match sort_queue (taskQueue d) with
  | [] => {| taskQueue := []; processing := false; inflight := None; handed := handed d |}
  | t :: rest =>
      {| taskQueue := rest; processing := true; inflight := Some t;
         handed := handed d ++ [t] |}
  end.

Definition processQueue (d : DaemonLoop) : DaemonLoop :=
  if processing d || (Z.of_nat (List.length (taskQueue d)) =? 0) then d
  else loop_head d.

Definition enqueueTask (d : DaemonLoop) (t : Task) : DaemonLoop :=
  processQueue {| taskQueue := taskQueue d ++ [t]; processing := processing d;
                  inflight := inflight d; handed := handed d |}.

(* The awaited executeTask settles (fulfilled or rejected): the loop body
   finishes and the loop goes round. *)
Definition settle (d : DaemonLoop) : DaemonLoop :=
  match inflight d with
  | Some _ => loop_head d
  | None => d
  end.



Definition mkTask (i : string) (p : TaskPriority) : Task :=
  {| id := i; type := "custom"; priority := p; title := i; description := "";
     assignedAgent := None; payload := []; dependencies := []; createdAt := 0;
     startedAt := None; completedAt := None; result := None |}.

Definition T1 : Task := mkTask "T1" low.


End Daemon.

(* --------------------------------------------------------------------- *)
(*  Orchestrator.executeTask                                              *)
(* --------------------------------------------------------------------- *)

Module Orchestrator.
Import Types.

Definition routing : list (string * string) :=
  [ ("clinical_consult", "clinical_specialist");
    ("ehr_sync", "clinical_specialist");
    ("financial_assessment", "financial_ops");
    ("credit_repair", "financial_ops");
    ("provider_outreach", "infrastructure_ops");
    ("infrastructure_deploy", "infrastructure_ops");
    ("web_navigation", "infrastructure_ops");
    ("security_audit", "security_ops");
    ("vulnerability_scan", "security_ops");
    ("osint_recon", "security_ops");
    ("computation", "quantitative");
    ("math_solve", "quantitative");
    ("physics_calc", "quantitative");
    ("trade_execute", "trading_ops");
    ("market_analysis", "trading_ops");
    ("portfolio_rebalance", "trading_ops");
    ("messaging_outbound", "messaging_ops");
    ("messaging_inbound", "messaging_ops");
    ("consciousness_eval", "consciousness");
    ("introspection", "consciousness");
    ("practitioner_register", "practitioner_ops");
    ("practitioner_verify", "practitioner_ops");
    ("credential_check", "practitioner_ops");
    ("practitioner_lookup", "practitioner_ops");
    ("practitioner_update", "practitioner_ops");
    ("payment_initiate", "payment_ops");
    ("payment_status", "payment_ops");
    ("payment_refund", "payment_ops");
    ("payment_providers", "payment_ops");
    ("bank_link", "banking_ops");
    ("bank_data", "banking_ops");
    ("bank_debit", "banking_ops");
    ("product_search", "shopping_ops");
    ("price_arbitrage", "shopping_ops");
    ("order_place", "shopping_ops");
    ("order_track", "shopping_ops");
    ("deal_watch", "shopping_ops");
    ("us_payment_charge", "us_payment_ops");
    ("us_payment_subscribe", "us_payment_ops");
    ("us_payment_connect", "us_payment_ops");
    ("us_payment_ach", "us_payment_ops");
    ("us_payment_wallet", "us_payment_ops");
    ("code_diagnose", "code_ops");
    ("code_fix", "code_ops");
    ("code_test", "code_ops");
    ("code_deploy", "code_ops");
    ("code_review", "code_ops");
    ("wallet_topup", "wallet_ops");
    ("wallet_transfer", "wallet_ops");
    ("wallet_withdraw", "wallet_ops");
    ("payment_method_add", "wallet_ops");
    ("payment_method_manage", "wallet_ops");
    ("bill_schedule", "wallet_ops");
    ("bill_pay", "wallet_ops");
    ("upromptpay", "wallet_ops");
    ("smart_split", "wallet_ops");
    ("tx_history", "wallet_ops");
    ("apple_pay_payment", "us_payment_ops");
    ("google_pay_payment", "us_payment_ops");
    ("express_checkout", "us_payment_ops");
    ("marketplace_invoke", "marketplace_ops");
    ("a2a_communication", "orchestrator");
    ("health_check", "orchestrator");
    ("crm_workflow", "orchestrator");
    ("self_evaluation", "self_eval");
    ("custom", "orchestrator") ].

Fixpoint lookup (k : string) (m : list (string * string)) : option string :=
  match m with
  | [] => None
  | (k', v) :: r => if String.eqb k' k then Some v else lookup k r
  end.

(* routing[task.type] || 'orchestrator': routing is an object literal, so a
   type naming none of its entries still finds what the literal inherits from
   Object.prototype, and that member is truthy. *)
Definition routeTask (task : Task) : AgentRole :=
  match lookup (type task) routing with
  | Some role => RoleName role
  | None => if Js.inherited (type task) then InheritedMember (type task)
            else RoleName "orchestrator"
  end.

(* What a handler throws: an Error carrying a message, or any other value
   with its String(...) rendering. *)
Inductive thrown : Type :=
| ErrorObject (message : string)
| OtherValue (rendered : string).

(* err instanceof Error ? err.message : String(err) *)
Definition error_text (err : thrown) : string :=
  match err with
  | ErrorObject message => message
  | OtherValue rendered => rendered
  end.

(* How the awaited handler (executeDirect or spawnSubAgent) ends. *)
Inductive outcome : Type :=
| Returned (r : TaskResult)
| Threw (err : thrown).

Inductive SystemEvent : Type :=
| task_started (taskId : string)
| task_completed (taskId : string) (r : TaskResult)
| task_failed (taskId : string) (errs : list string).

(* The four clock readings of one executeTask call. *)
Record clock : Type := {
  at_start : Z;          (* const start = Date.now() *)
  at_started : Z;        (* task.startedAt = new Date() *)
  at_completed : Z;      (* task.completedAt = new Date() *)
  at_end : Z             (* Date.now() on the way out *)
}.

Definition with_started (t : Task) (now : Z) : Task :=
  {| id := id t; type := type t; priority := priority t; title := title t;
     description := description t; assignedAgent := assignedAgent t;
     payload := payload t; dependencies := dependencies t; createdAt := createdAt t;
     startedAt := Some now; completedAt := completedAt t; result := result t |}.

Definition with_agent (t : Task) (role : AgentRole) : Task :=
  {| id := id t; type := type t; priority := priority t; title := title t;
     description := description t; assignedAgent := Some role;
     payload := payload t; dependencies := dependencies t; createdAt := createdAt t;
     startedAt := startedAt t; completedAt := completedAt t; result := result t |}.

Definition with_done (t : Task) (now : Z) (r : TaskResult) : Task :=
  {| id := id t; type := type t; priority := priority t; title := title t;
     description := description t; assignedAgent := assignedAgent t;
     payload := payload t; dependencies := dependencies t; createdAt := createdAt t;
     startedAt := startedAt t; completedAt := Some now; result := Some r |}.

Definition with_time (r : TaskResult) (ms : Z) : TaskResult :=
  {| success := success r; output := output r; tokensUsed := tokensUsed r;
     executionTimeMs := ms; subTasksSpawned := subTasksSpawned r; errors := errors r |}.

Record executed : Type := {
  task_after : Task;            (* the task object once the promise resolves *)
  returned : TaskResult;        (* the value the promise resolves with *)
  events : list SystemEvent     (* emitEvent calls, in order *)
}.

(* task.result and the returned value are one object, so the later write of
   executionTimeMs shows in both. *)
Definition executeTask (handler : AgentRole -> Task -> outcome) (clk : clock) (task : Task)
  : executed :=
  let task1 := with_started task (at_started clk) in
  let agentRole := routeTask task1 in
  let task2 := with_agent task1 agentRole in
  match handler agentRole task2 with
  | Returned r =>
      let r' := with_time r (at_end clk - at_start clk) in
      {| task_after := with_done task2 (at_completed clk) r';
         returned := r';
         events := [ task_started (id task);
                     if success r' then task_completed (id task) r'
                     else task_failed (id task) (errors r') ] |}
  | Threw err =>
      let error := error_text err in
      let r := {| success := false; output := Json.JNull; tokensUsed := 0;
                  executionTimeMs := at_end clk - at_start clk;
                  subTasksSpawned := []; errors := [error] |} in
      {| task_after := with_done task2 (at_completed clk) r;
         returned := r;
         events := [ task_started (id task); task_failed (id task) [error] ] |}
  end.

End Orchestrator.

(* --------------------------------------------------------------------- *)
(*  protocols/audit-trail.ts: the read side                               *)
(* --------------------------------------------------------------------- *)

Module AuditQueries.
Import AuditTrail.

(* SELECT COUNT( * ) FROM audit_trail *)
Definition getCount (st : AuditTrail) : nat := List.length (db st).

(* LIMIT n: a negative n means no limit *)
Definition sql_limit {A} (n : Z) (l : list A) : list A :=
  if n <? 0 then l else firstn (Z.to_nat n) l.

(* ... ORDER BY sequence_number DESC *)
Definition select_all_desc (rows : table) : table := rev (select_all_asc rows).

(* rows.map(f) for an f that may throw: the first throw aborts the map *)
Fixpoint map_throwing {A B} (f : A -> option B) (l : list A) : option (list B) :=
  match l with
  | [] => Some []
  | x :: r =>
      match f x with
      | Some y => match map_throwing f r with
                  | Some ys => Some (y :: ys)
                  | None => None
                  end
      | None => None
      end
  end.

(* The entries record has returned, oldest first, next to the ledger. *)
Fixpoint record_all (st : AuditTrail) (cs : list call) : AuditTrail * list AuditEntry :=
  match cs with
  | [] => (st, [])
  | c :: rest =>
      let (st', made) := record_all (fst (record st c)) rest in
      match snd (record st c) with
      | Some e => (st', e :: made)
      | None => (st', made)
      end
  end.

Section Parse.
(* JSON.parse on the details column: None when it throws. *)
Variable JSON_parse : string -> option Json.object.

(* new Date(iso).toISOString() gives back a timestamp written by record *)
Definition rowToEntry (row : Row.t) : option AuditEntry :=
  match JSON_parse (Row.details row) with
  | Some o =>
      Some {| id := Row.id row; sequenceNumber := Row.sequence_number row;
              timestamp := Row.timestamp row; actor := Row.actor row;
              action := Row.action row; target := Row.target row; details := o;
              previousHash := Row.previous_hash row; hash := Row.hash row |}
  | None => None
  end.

Definition getRecent (st : AuditTrail) (limit : Z) : option (list AuditEntry) :=
  option_map (@rev AuditEntry)
    (map_throwing rowToEntry (sql_limit limit (select_all_desc (db st)))).

Definition getByActor (st : AuditTrail) (who : string) (limit : Z)
  : option (list AuditEntry) :=
  map_throwing rowToEntry
    (sql_limit limit
       (select_all_desc (List.filter (fun r => String.eqb (Row.actor r) who) (db st)))).

End Parse.

(* DELETE FROM audit_trail WHERE sequence_number > k, issued from outside *)
Definition delete_after (k : Z) (st : AuditTrail) : AuditTrail :=
  {| db := List.filter (fun r => Row.sequence_number r <=? k) (db st);
     sequenceCounter := sequenceCounter st; lastHash := lastHash st |}.

(* DELETE FROM audit_trail WHERE sequence_number = k, issued from outside *)
Definition delete_row (k : Z) (st : AuditTrail) : AuditTrail :=
  {| db := List.filter (fun r => negb (Row.sequence_number r =? k)) (db st);
     sequenceCounter := sequenceCounter st; lastHash := lastHash st |}.

(* UPDATE audit_trail SET id = v WHERE sequence_number = k *)
Definition set_id (v : string) (r : Row.t) : Row.t :=
  Row.mk v (Row.sequence_number r) (Row.timestamp r) (Row.actor r) (Row.action r)
         (Row.target r) (Row.details r) (Row.previous_hash r) (Row.hash r).

End AuditQueries.

(* --------------------------------------------------------------------- *)
(*  protocols/bounded-autonomy.ts: reading the log and the policies       *)
(* --------------------------------------------------------------------- *)

Module AutonomyQueries.
Import BoundedAutonomy.

(* Array.prototype.slice(start): a negative start counts from the end
   (-0 is 0), and both ends are clamped to the array *)
Definition slice_from {A} (start : Z) (l : list A) : list A :=
  if start <? 0 then skipn (Z.to_nat (Z.of_nat (List.length l) + start)) l
  else skipn (Z.to_nat start) l.

(* this.auditLog.slice(-limit) *)
Definition getAuditLog (e : Engine) (limit : Z) : list Decision :=
  slice_from (- limit) (auditLog e).

(* [...this.policies] *)
Definition getPolicies (e : Engine) : list Policy.t := policies e.

(* the authority levels from weakest to strictest *)
Definition strictness (a : AuthorityLevel) : Z :=
  match a with
  | auto_approve => 0
  | log_only => 1
  | require_approval => 2
  | require_human => 3
  end.

End AutonomyQueries.

(* --------------------------------------------------------------------- *)
(*  DaemonLoop and Orchestrator: runs of the queue, handler lookup        *)
(* --------------------------------------------------------------------- *)

Module DaemonRuns.
Import Types Daemon.

(* What can happen to the queue from outside: a caller enqueues a task, or
   the executeTask the worker awaits settles. *)
Inductive event : Type :=
| Enqueue (t : Task)
| Settle.

Definition apply_event (d : DaemonLoop) (ev : event) : DaemonLoop :=
  match ev with
  | Enqueue t => enqueueTask d t
  | Settle => settle d
  end.

Definition run (evs : list event) : DaemonLoop := fold_left apply_event evs idle.


End DaemonRuns.

Module OrchestratorAgents.
Import Types Orchestrator.

(* The fields of SubAgentConfig that handler selection reads. *)
Record SubAgentConfig : Type := {
  role : string;
  name : string;
  tools : list string
}.

Definition SUB_AGENT_CONFIGS : list (string * SubAgentConfig) :=
  [
    ("clinical_specialist",
     {| role := "clinical_specialist"; name := "Hippocrates";
        tools := ["fhir_query"; "fhir_write"; "patient_lookup"; "medication_checker"; "triage_scorer"] |});
    ("financial_ops",
     {| role := "financial_ops"; name := "Atlas";
        tools := ["credit_bureau_api"; "dispute_form_filler"; "payment_calculator"; "insurance_checker"; "browser_navigate"] |});
    ("infrastructure_ops",
     {| role := "infrastructure_ops"; name := "Forge";
        tools := ["browser_navigate"; "dom_parser"; "email_send"; "git_operations"; "network_scanner"] |});
    ("security_ops",
     {| role := "security_ops"; name := "Sentinel";
        tools := ["port_scanner"; "vulnerability_scanner"; "ssl_analyzer"; "dns_recon"; "subdomain_enum"; "exploit_validator"; "security_audit"; "tor_browser"; "onion_crawler"; "whois_lookup"; "shodan_query"; "google_dorking"; "threat_intel_feed"; "breach_database_query"] |});
    ("quantitative",
     {| role := "quantitative"; name := "Archimedes";
        tools := ["math_solver"; "physics_engine"; "economics_model"; "vortex_math"; "statistics_engine"] |});
    ("trading_ops",
     {| role := "trading_ops"; name := "Midas";
        tools := ["market_data_feed"; "order_executor"; "portfolio_analyzer"; "risk_calculator"; "backtester"; "technical_analysis"; "sentiment_analyzer"] |});
    ("messaging_ops",
     {| role := "messaging_ops"; name := "Hermes";
        tools := ["send_message"; "receive_message"; "broadcast_message"; "channel_status"] |});
    ("consciousness",
     {| role := "consciousness"; name := "Oracle";
        tools := ["image_analyzer"; "document_ocr"] |});
    ("practitioner_ops",
     {| role := "practitioner_ops"; name := "Asclepius";
        tools := ["npi_lookup"; "practitioner_register"; "practitioner_verify"; "credential_check"; "practitioner_profile_update"] |});
    ("payment_ops",
     {| role := "payment_ops"; name := "Mercury";
        tools := ["mpesa_stk_push"; "mtn_momo_request_to_pay"; "flutterwave_charge"; "paystack_initialize"; "razorpay_create_order"; "payment_status_check"; "payment_refund"; "payment_providers_status"] |});
    ("banking_ops",
     {| role := "banking_ops"; name := "Plutus";
        tools := ["mono_link_account"; "mono_get_account_data"; "mono_initiate_debit"; "stitch_link_account"; "stitch_get_account_data"; "banking_providers_status"] |});
    ("shopping_ops",
     {| role := "shopping_ops"; name := "Athena";
        tools := ["product_search"; "price_arbitrage"; "stripe_payment_intent"; "stripe_payment_link"; "web_push_payment"; "order_tracker"; "deal_watcher"] |});
    ("us_payment_ops",
     {| role := "us_payment_ops"; name := "Janus";
        tools := ["stripe_charge"; "stripe_subscription"; "stripe_connect_onboard"; "ach_transfer"; "apple_pay_session"; "google_pay_token"; "payment_request_api"; "wallet_balance"; "apple_pay_complete_payment"; "apple_pay_subscription"; "apple_pay_express_checkout"; "google_pay_complete_payment"] |});
    ("code_ops",
     {| role := "code_ops"; name := "Prometheus";
        tools := ["code_read"; "code_write"; "code_test"; "code_diagnose"; "code_fix"; "code_review"; "code_deploy"; "runtime_patch"] |});
    ("wallet_ops",
     {| role := "wallet_ops"; name := "Nexus";
        tools := ["add_payment_method"; "list_payment_methods"; "remove_payment_method"; "set_default_payment_method"; "create_bill_schedule"; "list_bill_schedules"; "cancel_bill_schedule"; "bill_pay_now"; "wallet_topup"; "wallet_transfer"; "wallet_withdraw"; "transaction_history"; "upromptpay"; "smart_split"; "pay_forward"] |});
    ("marketplace_ops",
     {| role := "marketplace_ops"; name := "Agora";
        tools := ["marketplace_register_tool"; "marketplace_list_tools"; "marketplace_invoke_tool"] |}) ].

Fixpoint config_lookup (k : string) (m : list (string * SubAgentConfig))
  : option SubAgentConfig :=
  match m with
  | [] => None
  | (k', v) :: r => if String.eqb k' k then Some v else config_lookup k r
  end.

(* `${role}` *)
Definition role_text (r : AgentRole) : string :=
  match r with
  | RoleName s => s
  | InheritedMember k => Js.string_of_member k
  end.

(* role === 'self_eval' ? 'clinical_specialist' : role, as the property key
   SUB_AGENT_CONFIGS is indexed with *)
Definition configKey (r : AgentRole) : string :=
  match r with
  | RoleName s => if String.eqb s "self_eval" then "clinical_specialist" else s
  | InheritedMember k => Js.string_of_member k
  end.

(* The head of spawnSubAgent: the early failure when no config is found,
   otherwise the config the sub-agent is built from.  executeTask passes it
   what routeTask returned, and none of the keys that yields names a member
   SUB_AGENT_CONFIGS inherits, so the entries of the literal decide. *)
Definition spawn_config (r : AgentRole) : TaskResult + SubAgentConfig :=
  match config_lookup (configKey r) SUB_AGENT_CONFIGS with
  | None =>
      inl {| success := false; output := Json.JNull; tokensUsed := 0;
             executionTimeMs := 0; subTasksSpawned := [];
             errors := ["No config for agent role: " +:+ role_text r] |}
  | Some c => inr c
  end.

(* The handler executeTask awaits: executeDirect when agentRole ===
   'orchestrator', spawnSubAgent otherwise.  Both call the model API; what
   spawnSubAgent does once it has a config is the parameter spawned. *)
Definition dispatch (executeDirect : Task -> outcome)
    (spawned : SubAgentConfig -> Task -> outcome) (r : AgentRole) (t : Task) : outcome :=
  let spawnSubAgent :=
    match spawn_config r with
    | inl failure => Returned failure
    | inr c => spawned c t
    end in
  match r with
  | RoleName s => if String.eqb s "orchestrator" then executeDirect t else spawnSubAgent
  | InheritedMember _ => spawnSubAgent
  end.

End OrchestratorAgents.

(* ===================================================================== *)
(*  Properties                                                            *)
(* ===================================================================== *)

(* The digest agrees with the FIPS 180-4 test vectors. *)
Example sha256_abc :
  Sha256.sha256_hex "abc"
  = "ba7816bf8f01cfea414140de5dae2223b00361a396177a9cb410ff61f20015ad"%string.
Proof. vm_compute. reflexivity. Qed.

Example sha256_empty :
  Sha256.sha256_hex ""
  = "e3b0c44298fc1c149afbf4c8996fb92427ae41e4649b934ca495991b7852b855"%string.
Proof. vm_compute. reflexivity. Qed.

Example sha256_two_blocks :
  Sha256.sha256_hex "abcdbcdecdefdefgefghfghighijhijkijkljklmklmnlmnomnopnopq"
  = "248d6a61d20638b8e5c026930c3e6039a33ce45964ff2167f6ecedd419db06c1"%string.
Proof. vm_compute. reflexivity. Qed.

(* --------------------------------------------------------------------- *)
(*  The stable sort                                                       *)
(* --------------------------------------------------------------------- *)

Section StableSortFacts.
Context {A : Type} (key : A -> Z).

Definition key_le (a b : A) : Prop := key a <= key b.

Lemma insert_by_below x l :
  Forall (key_le x) l -> insert_by key x l = x :: l.
Proof.
  destruct l as [|y l]; [reflexivity|].
  intros H. apply Forall_inv in H. unfold key_le in H. simpl.
  destruct (Z.leb_spec (key x) (key y)); [reflexivity | lia].
Qed.

Lemma stable_sort_sorted l :
  StronglySorted key_le l -> stable_sort key l = l.
Proof.
  induction 1 as [|x l Hs IH Hx]; [reflexivity|].
  simpl. fold (stable_sort key l). rewrite IH. now apply insert_by_below.
Qed.

Lemma insert_by_perm x l : Permutation (insert_by key x l) (x :: l).
Proof.
  induction l as [|y l IH]; simpl; [reflexivity|].
  destruct (key x <=? key y); [reflexivity|].
  rewrite IH. apply perm_swap.
Qed.

Lemma stable_sort_perm l : Permutation (stable_sort key l) l.
Proof.
  induction l as [|x l IH]; simpl; [reflexivity|].
  fold (stable_sort key l). rewrite insert_by_perm. now constructor.
Qed.

Lemma insert_by_strongly_sorted x l :
  StronglySorted key_le l -> StronglySorted key_le (insert_by key x l).
Proof.
  induction 1 as [|y l Hs IH Hy]; simpl.
  - repeat constructor.
  - destruct (Z.leb_spec (key x) (key y)) as [Hle|Hgt].
    + constructor; [now constructor|].
      constructor; [exact Hle|].
      eapply Forall_impl; [exact Hy|]. unfold key_le. intros; lia.
    + constructor; [exact IH|].
      rewrite insert_by_perm. constructor; [unfold key_le; lia | exact Hy].
Qed.

Lemma stable_sort_strongly_sorted l : StronglySorted key_le (stable_sort key l).
Proof.
  induction l as [|x l IH]; simpl; [constructor|].
  now apply insert_by_strongly_sorted.
Qed.



End StableSortFacts.

(* --------------------------------------------------------------------- *)
(*  String concatenation                                                  *)
(* --------------------------------------------------------------------- *)

Module StringFacts.

Lemma append_nil (y : string) : "" +:+ y = y.
Proof. reflexivity. Qed.

Lemma append_cons (c : ascii) (x y : string) : String c x +:+ y = String c (x +:+ y).
Proof. reflexivity. Qed.

Lemma length_append (x y : string) :
  String.length (x +:+ y) = (String.length x + String.length y)%nat.
Proof.
  induction x as [|c x IH]; [reflexivity|].
  rewrite append_cons. cbn [String.length]. now rewrite IH.
Qed.

Lemma append_cancel_r (s x y : string) : x +:+ s = y +:+ s -> x = y.
Proof.
  revert y. induction x as [|c x IH]; intros [|d y] H.
  - reflexivity.
  - apply (f_equal String.length) in H. rewrite !length_append in H.
    cbn [String.length] in H. lia.
  - apply (f_equal String.length) in H. rewrite !length_append in H.
    cbn [String.length] in H. lia.
  - rewrite !append_cons in H. injection H as -> H. f_equal. now apply IH.
Qed.

Lemma append_cancel_l (p x y : string) : p +:+ x = p +:+ y -> x = y.
Proof.
  induction p as [|c p IH]; [auto|].
  rewrite !append_cons. intros [= H]. auto.
Qed.

Lemma append_assoc (x y z : string) : (x +:+ y) +:+ z = x +:+ (y +:+ z).
Proof.
  induction x as [|c x IH]; [reflexivity|].
  rewrite !append_cons. now rewrite IH.
Qed.

Lemma prefix_append (p x : string) : String.prefix p (p +:+ x) = true.
Proof.
  induction p as [|c p IH]; [rewrite append_nil; now destruct x|].
  rewrite append_cons. cbn [String.prefix].
  destruct (ascii_dec c c); [exact IH | congruence].
Qed.

End StringFacts.

(* --------------------------------------------------------------------- *)
(*  Audit trail: the hash chain                                           *)
(* --------------------------------------------------------------------- *)

Module AuditTrailProofs.
Import AuditTrail StringFacts.

(* The running hash after the loop of verifyChain has accepted [rows],
   None as soon as one row is rejected. *)
Fixpoint chain (prev : string) (rows : table) : option string :=
  match rows with
  | [] => Some prev
  | r :: rest =>
      if String.eqb (Row.previous_hash r) prev
         && String.eqb (Row.hash r) (Sha256.sha256_hex (row_payload r))
      then chain (Row.hash r) rest
      else None
  end.

(* a, a+1, ..., a+n-1 *)
Fixpoint count_up (a : Z) (n : nat) : list Z :=
  match n with
  | O => []
  | S n' => a :: count_up (a + 1) n'
  end.

Definition seqs (rows : table) : list Z := List.map Row.sequence_number rows.
Definition ids (rows : table) : list string := List.map Row.id rows.

Lemma chain_app prev l1 l2 h :
  chain prev l1 = Some h -> chain prev (l1 ++ l2) = chain h l2.
Proof.
  revert prev. induction l1 as [|r l1 IH]; intros prev; simpl.
  - now intros [= ->].
  - destruct (_ && _); [apply IH | discriminate].
Qed.

Lemma verify_rows_chain total prev rows h :
  chain prev rows = Some h ->
  verify_rows total prev rows
  = {| valid := true; brokenAt := None; totalEntries := total |}.
Proof.
  revert prev. induction rows as [|r rows IH]; intros prev; simpl; [reflexivity|].
  destruct (String.eqb (Row.previous_hash r) prev); simpl; [|discriminate].
  destruct (String.eqb (Row.hash r) _); simpl; [apply IH | discriminate].
Qed.

Lemma verify_rows_app total prev l1 l2 h :
  chain prev l1 = Some h ->
  verify_rows total prev (l1 ++ l2) = verify_rows total h l2.
Proof.
  revert prev. induction l1 as [|r l1 IH]; intros prev; simpl.
  - now intros [= ->].
  - destruct (String.eqb (Row.previous_hash r) prev); simpl; [|discriminate].
    destruct (String.eqb (Row.hash r) _); simpl; [apply IH | discriminate].
Qed.

Lemma count_up_snoc a n : count_up a (S n) = count_up a n ++ [a + Z.of_nat n].
Proof.
  revert a. induction n as [|n IH]; intros a.
  - simpl. now rewrite Z.add_0_r.
  - change (count_up a (S (S n))) with (a :: count_up (a + 1) (S n)).
    rewrite IH, Nat2Z.inj_succ.
    change (count_up a (S n)) with (a :: count_up (a + 1) n).
    cbn [app]. do 3 f_equal. lia.
Qed.

Lemma count_up_bounds a n x : In x (count_up a n) -> a <= x < a + Z.of_nat n.
Proof.
  revert a. induction n as [|n IH]; intros a; simpl; [tauto|].
  intros [<- | H]; [lia|]. apply IH in H. lia.
Qed.

Lemma count_up_length a n : List.length (count_up a n) = n.
Proof. revert a. induction n; intros; simpl; auto. Qed.

Lemma count_up_sorted a n : StronglySorted Z.le (count_up a n).
Proof.
  revert a. induction n as [|n IH]; intros a; simpl; constructor; [apply IH|].
  apply List.Forall_forall. intros x Hx. apply count_up_bounds in Hx. lia.
Qed.

Lemma count_up_NoDup a n : List.NoDup (count_up a n).
Proof.
  revert a. induction n as [|n IH]; intros a; simpl; constructor; [|apply IH].
  intros H. apply count_up_bounds in H. lia.
Qed.

Lemma sorted_by_seqs (rows : table) :
  StronglySorted Z.le (seqs rows) -> StronglySorted (key_le Row.sequence_number) rows.
Proof.
  induction rows as [|r rows IH]; simpl; intros H; [constructor|].
  apply StronglySorted_inv in H as [Hs Hf].
  constructor; [now apply IH|].
  apply List.Forall_forall. intros x Hx.
  rewrite List.Forall_forall in Hf. apply Hf. now apply in_map.
Qed.

Lemma select_all_asc_sorted (rows : table) :
  StronglySorted Z.le (seqs rows) -> select_all_asc rows = rows.
Proof. intros H. apply stable_sort_sorted. now apply sorted_by_seqs. Qed.

(* The state of a ledger that started empty and has appended n entries. *)
Record grown (st : AuditTrail) (n : nat) : Prop := {
  grown_seqs : seqs (db st) = count_up 1 n;
  grown_counter : sequenceCounter st = Z.of_nat n;
  grown_chain : chain genesis (db st) = Some (lastHash st)
}.

Lemma grown_fresh : grown (constructor []) 0.
Proof. split; reflexivity. Qed.

Lemma violates_constraints_false rows r :
  ~ In (Row.id r) (ids rows) -> ~ In (Row.sequence_number r) (seqs rows) ->
  violates_constraints rows r = false.
Proof.
  unfold violates_constraints. intros Hi Hs.
  induction rows as [|x rows IH]; [reflexivity|]. simpl in *.
  rewrite IH by tauto.
  destruct (String.eqb_spec (Row.id x) (Row.id r)) as [E|_]; [tauto|].
  destruct (Z.eqb_spec (Row.sequence_number x) (Row.sequence_number r)) as [E|_];
    [tauto | reflexivity].
Qed.

Lemma row_payload_row_of st c :
  row_payload (row_of (entry_of st c))
  = payload (lastHash st) (sequenceCounter st + 1) (c_now c) (c_actor c) (c_action c)
            (c_target c) (Json.stringify (Json.JObj (c_details c))).
Proof. reflexivity. Qed.

Lemma chain_single st c :
  chain (lastHash st) [row_of (entry_of st c)] = Some (hash (entry_of st c)).
Proof.
  cbn [chain row_of Row.previous_hash Row.hash entry_of previousHash hash].
  rewrite String.eqb_refl. cbn [andb].
  change (row_payload _) with (row_payload (row_of (entry_of st c))).
  rewrite row_payload_row_of, String.eqb_refl. reflexivity.
Qed.

Lemma record_grown st n c :
  grown st n -> ~ In (c_uuid c) (ids (db st)) ->
  record st c
  = ({| db := db st ++ [row_of (entry_of st c)];
        sequenceCounter := sequenceCounter st + 1;
        lastHash := hash (entry_of st c) |}, Some (entry_of st c))
  /\ grown (fst (record st c)) (S n).
Proof.
  intros [Hs Hc Hch] Hid.
  assert (Hins : db_insert (db st) (row_of (entry_of st c))
                 = Some (db st ++ [row_of (entry_of st c)])).
  { unfold db_insert. rewrite violates_constraints_false; [reflexivity | exact Hid |].
    rewrite Hs. intros H. apply count_up_bounds in H.
    cbn [row_of Row.sequence_number entry_of sequenceNumber] in H. lia. }
  assert (Hrec : record st c
    = ({| db := db st ++ [row_of (entry_of st c)];
          sequenceCounter := sequenceCounter st + 1;
          lastHash := hash (entry_of st c) |}, Some (entry_of st c))).
  { unfold record. rewrite Hins. reflexivity. }
  split; [exact Hrec|]. rewrite Hrec. cbn [fst]. split; cbn [db sequenceCounter lastHash].
  - unfold seqs in *. rewrite List.map_app, Hs, count_up_snoc.
    cbn [List.map row_of Row.sequence_number entry_of sequenceNumber].
    do 2 f_equal. lia.
  - lia.
  - rewrite (chain_app _ _ _ _ Hch). apply chain_single.
Qed.

Lemma run_grown cs : forall st n,
  grown st n -> List.NoDup (ids (db st) ++ List.map c_uuid cs) ->
  grown (run st cs) (n + List.length cs)
  /\ ids (db (run st cs)) = ids (db st) ++ List.map c_uuid cs.
Proof.
  induction cs as [|c cs IH]; intros st n Hg Hnd.
  - cbn. rewrite Nat.add_0_r, app_nil_r. auto.
  - cbn [List.map List.length] in *.
    assert (Hfresh : ~ In (c_uuid c) (ids (db st))).
    { intros Hin. apply List.NoDup_remove_2 in Hnd. apply Hnd.
      apply in_or_app. now left. }
    destruct (record_grown st n c Hg Hfresh) as [Hrec Hg'].
    change (run st (c :: cs)) with (run (fst (record st c)) cs).
    assert (Hids : ids (db (fst (record st c))) = ids (db st) ++ [c_uuid c]).
    { rewrite Hrec. cbn [fst db]. unfold ids. now rewrite List.map_app. }
    destruct (IH (fst (record st c)) (S n) Hg') as [Hg'' Hids''].
    { rewrite Hids, <- app_assoc. exact Hnd. }
    split.
    + now replace (n + S (List.length cs))%nat with (S n + List.length cs)%nat by lia.
    + rewrite Hids'', Hids, <- app_assoc. reflexivity.
Qed.

Lemma grown_length st n : grown st n -> List.length (db st) = n.
Proof.
  intros [Hs _ _]. unfold seqs in Hs.
  now rewrite <- (List.length_map Row.sequence_number), Hs, count_up_length.
Qed.

(* The early return for an empty table agrees with the loop. *)
Lemma verifyChain_loop st :
  verifyChain st
  = verify_rows (List.length (select_all_asc (db st))) genesis (select_all_asc (db st)).
Proof. unfold verifyChain. now destruct (select_all_asc (db st)). Qed.

Lemma verifyChain_grown st n :
  grown st n ->
  verifyChain st = {| valid := true; brokenAt := None; totalEntries := n |}.
Proof.
  intros Hg. pose proof (grown_length _ _ Hg) as Hlen. destruct Hg as [Hs _ Hch].
  rewrite verifyChain_loop.
  rewrite select_all_asc_sorted by (rewrite Hs; apply count_up_sorted).
  now rewrite (verify_rows_chain _ _ _ _ Hch), Hlen.
Qed.

Lemma alter_hash a r : Row.hash (alter a r) = Row.hash r.
Proof. destruct r, a; reflexivity. Qed.

Lemma alter_sequence a r :
  keeps_sequence a = true -> Row.sequence_number (alter a r) = Row.sequence_number r.
Proof. destruct r, a; simpl; congruence. Qed.

Lemma db_update_other k f rows :
  ~ In k (seqs rows) -> db_update k f rows = rows.
Proof.
  induction rows as [|x rows IH]; [reflexivity|]. simpl. intros H.
  destruct (Z.eqb_spec (Row.sequence_number x) k) as [E|_]; [tauto|].
  f_equal. apply IH. tauto.
Qed.

Lemma db_update_split f l1 r l2 :
  List.NoDup (seqs (l1 ++ r :: l2)) ->
  db_update (Row.sequence_number r) f (l1 ++ r :: l2) = l1 ++ f r :: l2.
Proof.
  intros Hnd. unfold seqs in Hnd. rewrite List.map_app in Hnd. cbn [List.map] in Hnd.
  pose proof (List.NoDup_remove_2 _ _ _ Hnd) as Hnot.
  unfold db_update. rewrite List.map_app. cbn [List.map].
  rewrite Z.eqb_refl. f_equal; [|f_equal].
  - apply (db_update_other _ f). intros H. apply Hnot, in_or_app. now left.
  - apply (db_update_other _ f). intros H. apply Hnot, in_or_app. now right.
Qed.

Lemma chain_split prev l1 r l2 h :
  chain prev (l1 ++ r :: l2) = Some h ->
  exists h1, chain prev l1 = Some h1
             /\ Row.previous_hash r = h1
             /\ Row.hash r = Sha256.sha256_hex (row_payload r).
Proof.
  revert prev. induction l1 as [|x l1 IH]; intros prev; simpl.
  - destruct (String.eqb_spec (Row.previous_hash r) prev) as [E|]; [|discriminate].
    destruct (String.eqb_spec (Row.hash r) (Sha256.sha256_hex (row_payload r)));
      [|discriminate].
    intros _. eauto.
  - destruct (_ && _); [apply IH | discriminate].
Qed.

(* An outside UPDATE of one hashed column other than sequence_number is
   reported at the row it touched, unless the new payload hashes to the
   stored digest. *)
Lemma verifyChain_tamper st n r a :
  grown st n -> In r (db st) -> keeps_sequence a = true ->
  Sha256.sha256_hex (row_payload (alter a r)) <> Sha256.sha256_hex (row_payload r) ->
  verifyChain (tamper (Row.sequence_number r) a st)
  = {| valid := false; brokenAt := Some (Row.sequence_number r); totalEntries := n |}.
Proof.
  intros Hg Hin Hk Hneq. pose proof (grown_length _ _ Hg) as Hlen.
  destruct Hg as [Hs _ Hch].
  apply in_split in Hin as (l1 & l2 & E).
  rewrite verifyChain_loop. unfold tamper. cbn [db]. rewrite E in *.
  rewrite db_update_split by (rewrite Hs; apply count_up_NoDup).
  assert (Hseqs : seqs (l1 ++ alter a r :: l2) = seqs (l1 ++ r :: l2)).
  { unfold seqs. rewrite !List.map_app. cbn [List.map]. now rewrite alter_sequence. }
  rewrite select_all_asc_sorted by (rewrite Hseqs, Hs; apply count_up_sorted).
  assert (Hl : List.length (l1 ++ alter a r :: l2) = n).
  { rewrite <- Hlen, !List.length_app. reflexivity. }
  destruct (chain_split _ _ _ _ _ Hch) as (h1 & Hc1 & Hp & Hh).
  rewrite Hl, (verify_rows_app _ _ _ _ _ Hc1).
  cbn [verify_rows]. rewrite alter_sequence, alter_hash by exact Hk.
  destruct (String.eqb (Row.previous_hash (alter a r)) h1); cbn [negb]; [|reflexivity].
  rewrite Hh.
  destruct (String.eqb_spec (Sha256.sha256_hex (row_payload r))
                            (Sha256.sha256_hex (row_payload (alter a r)))) as [E2|_];
    [congruence | reflexivity].
Qed.

(* Altering one hashed text column changes the hashed string, so only a
   SHA-256 collision can hide it. *)
Definition changes (a : alteration) (r : Row.t) : Prop :=
  match a with
  | SetSequenceNumber v => v <> Row.sequence_number r
  | SetTimestamp v => v <> Row.timestamp r
  | SetActor v => v <> Row.actor r
  | SetAction v => v <> Row.action r
  | SetTarget v => v <> Row.target r
  | SetDetails v => v <> Row.details r
  | SetPreviousHash v => v <> Row.previous_hash r
  end.

Lemma alter_changes_payload a r :
  keeps_sequence a = true -> changes a r -> row_payload (alter a r) <> row_payload r.
Proof.
  destruct r as [i n ts ac an tg d ph h].
  destruct a as [v|v|v|v|v|v|v]; cbn; intros Hk Hc E; try discriminate; apply Hc;
    cbv [row_payload payload Row.previous_hash Row.sequence_number Row.timestamp
         Row.actor Row.action Row.target Row.details] in E;
    repeat match type of E with
           | ?p +:+ _ = ?p +:+ _ => apply append_cancel_l in E
           end;
    first [exact E | now apply append_cancel_r in E].
Qed.

(* -- A ledger opened on an existing table ------------------------------ *)

Lemma fold_max_ge (rest : table) (a : Z) :
  a <= fold_left (fun m x => Z.max m (Row.sequence_number x)) rest a
  /\ forall x, In x rest ->
       Row.sequence_number x
       <= fold_left (fun m x => Z.max m (Row.sequence_number x)) rest a.
Proof.
  revert a. induction rest as [|y rest IH]; intros a; cbn [fold_left].
  - split; [lia | intros x []].
  - destruct (IH (Z.max a (Row.sequence_number y))) as [H1 H2]. split; [lia|].
    intros x [<- | Hx]; [lia | now apply H2].
Qed.

Lemma fold_max_attained (rest : table) (a : Z) :
  fold_left (fun m x => Z.max m (Row.sequence_number x)) rest a = a
  \/ exists x, In x rest
       /\ Row.sequence_number x
          = fold_left (fun m x => Z.max m (Row.sequence_number x)) rest a.
Proof.
  revert a. induction rest as [|y rest IH]; intros a; cbn [fold_left]; [now left|].
  destruct (IH (Z.max a (Row.sequence_number y))) as [H | (x & Hx & H)].
  - destruct (Z.max_spec a (Row.sequence_number y)) as [[_ E] | [_ E]].
    + right. exists y. split; [now left | congruence].
    + left. congruence.
  - right. exists x. split; [now right | exact H].
Qed.

Lemma persisted_max_ge rows r :
  In r rows -> Row.sequence_number r <= persisted_max rows.
Proof.
  destruct rows as [|y rest]; [intros []|]. cbn [persisted_max].
  destruct (fold_max_ge rest (Row.sequence_number y)) as [H1 H2].
  intros [<- | Hx]; [exact H1 | now apply H2].
Qed.

Lemma persisted_max_attained rows :
  rows <> [] -> exists r, In r rows /\ Row.sequence_number r = persisted_max rows.
Proof.
  destruct rows as [|y rest]; [congruence|]. intros _. cbn [persisted_max].
  destruct (fold_max_attained rest (Row.sequence_number y)) as [H | (x & Hx & H)].
  - exists y. split; [now left | now rewrite H].
  - exists x. split; [now right | exact H].
Qed.

Lemma persisted_max_snoc rows x :
  persisted_max rows < Row.sequence_number x ->
  persisted_max (rows ++ [x]) = Row.sequence_number x.
Proof.
  intros Hlt.
  assert (Hne : rows ++ [x] <> []) by (now destruct rows).
  destruct (persisted_max_attained _ Hne) as (r & Hr & E).
  pose proof (persisted_max_ge (rows ++ [x]) x) as Hx.
  apply in_app_or in Hr as [Hr | [<- | []]].
  - apply persisted_max_ge in Hr.
    specialize (Hx ltac:(apply in_or_app; right; now left)). lia.
  - now rewrite E.
Qed.

Lemma strongly_sorted_last {A} (R : A -> A -> Prop) l x :
  StronglySorted R (l ++ [x]) -> List.Forall (fun y => R y x) l.
Proof.
  induction l as [|y l IH]; cbn [app]; intros H; [constructor|].
  apply StronglySorted_inv in H as [Hs Hf]. constructor; [|now apply IH].
  rewrite List.Forall_forall in Hf. apply Hf, in_or_app. right. now left.
Qed.

Lemma select_last_none rows : select_last rows = None -> rows = [].
Proof.
  unfold select_last, select_all_asc. intros H.
  pose proof (stable_sort_perm Row.sequence_number rows) as Hp.
  destruct (rev (stable_sort Row.sequence_number rows)) eqn:E; [|discriminate].
  apply (f_equal (@rev _)) in E. rewrite rev_involutive in E. cbn in E.
  rewrite E in Hp. now apply Permutation_nil in Hp.
Qed.

Lemma select_last_some rows last :
  select_last rows = Some last ->
  In last rows /\ forall x, In x rows -> Row.sequence_number x <= Row.sequence_number last.
Proof.
  unfold select_last, select_all_asc. intros H.
  pose proof (stable_sort_perm Row.sequence_number rows) as Hp.
  pose proof (stable_sort_strongly_sorted Row.sequence_number rows) as Hs.
  destruct (rev (stable_sort Row.sequence_number rows)) as [|y t] eqn:E; [discriminate|].
  cbn in H. injection H as ->.
  apply (f_equal (@rev _)) in E. rewrite rev_involutive in E. cbn [rev] in E.
  rewrite E in Hp, Hs. split.
  - apply (Permutation_in _ Hp), in_or_app. right. now left.
  - intros x Hx. symmetry in Hp. apply (Permutation_in _ Hp) in Hx.
    apply in_app_or in Hx as [Hx | [<- | []]]; [|lia].
    apply strongly_sorted_last in Hs. rewrite List.Forall_forall in Hs.
    now apply Hs.
Qed.

Lemma seq_determines_row rows x y :
  List.NoDup (seqs rows) -> In x rows -> In y rows ->
  Row.sequence_number x = Row.sequence_number y -> x = y.
Proof.
  induction rows as [|z rows IH]; [intros _ []|].
  unfold seqs. cbn [List.map]. intros Hnd Hx Hy E.
  pose proof (List.NoDup_cons_iff (Row.sequence_number z)
                (List.map Row.sequence_number rows)) as [Hc _].
  destruct (Hc Hnd) as [Hnot Hnd'].
  destruct Hx as [<- | Hx], Hy as [<- | Hy]; [reflexivity | | |now apply IH].
  - exfalso. apply Hnot. rewrite E. now apply in_map.
  - exfalso. apply Hnot. rewrite <- E. now apply in_map.
Qed.

(* The counter and lastHash agree with the table: what the constructor
   establishes and every successful record keeps. *)
Record synced (st : AuditTrail) : Prop := {
  synced_counter : sequenceCounter st = persisted_max (db st);
  synced_genesis : db st = [] -> lastHash st = genesis;
  synced_last : forall r, In r (db st) ->
                  Row.sequence_number r = persisted_max (db st) ->
                  lastHash st = Row.hash r;
  synced_unique : List.NoDup (seqs (db st))
}.

Lemma constructor_db rows : db (constructor rows) = rows.
Proof. unfold constructor. now destruct (select_last rows). Qed.

Lemma constructor_synced rows :
  List.NoDup (seqs rows) -> synced (constructor rows).
Proof.
  intros Hnd. unfold constructor. destruct (select_last rows) as [last|] eqn:E.
  - apply select_last_some in E as [Hin Hmax].
    assert (Hne : rows <> []) by (intros ->; destruct Hin).
    destruct (persisted_max_attained rows Hne) as (m & Hm & Em).
    assert (Elast : Row.sequence_number last = persisted_max rows).
    { apply persisted_max_ge in Hin. specialize (Hmax m Hm). lia. }
    split; cbn [db sequenceCounter lastHash]; [exact Elast | congruence | | exact Hnd].
    intros r Hr Er. f_equal. apply (seq_determines_row rows); auto. congruence.
  - apply select_last_none in E as ->.
    split; cbn [db sequenceCounter lastHash]; [reflexivity | reflexivity | intros r [] | constructor].
Qed.

Lemma record_synced st c :
  synced st -> ~ In (c_uuid c) (ids (db st)) ->
  record st c
  = ({| db := db st ++ [row_of (entry_of st c)];
        sequenceCounter := sequenceCounter st + 1;
        lastHash := hash (entry_of st c) |}, Some (entry_of st c))
  /\ synced (fst (record st c)).
Proof.
  intros [Hc Hg Hl Hu] Hid.
  assert (Hnew : ~ In (sequenceCounter st + 1) (seqs (db st))).
  { unfold seqs. rewrite in_map_iff. intros (r & Er & Hr).
    apply persisted_max_ge in Hr. lia. }
  assert (Hrec : record st c
    = ({| db := db st ++ [row_of (entry_of st c)];
          sequenceCounter := sequenceCounter st + 1;
          lastHash := hash (entry_of st c) |}, Some (entry_of st c))).
  { unfold record, db_insert.
    rewrite violates_constraints_false; [reflexivity | exact Hid | exact Hnew]. }
  split; [exact Hrec|]. rewrite Hrec. cbn [fst].
  assert (Hmax : persisted_max (db st ++ [row_of (entry_of st c)])
                 = sequenceCounter st + 1).
  { rewrite persisted_max_snoc; cbn [row_of Row.sequence_number entry_of sequenceNumber];
      [reflexivity | lia]. }
  split; cbn [db sequenceCounter lastHash].
  - now rewrite Hmax.
  - now destruct (db st).
  - rewrite Hmax. intros r Hr Er. apply in_app_or in Hr as [Hr | [<- | []]].
    + apply persisted_max_ge in Hr. lia.
    + reflexivity.
  - unfold seqs in *. rewrite List.map_app. cbn [List.map].
    apply List.NoDup_app; [exact Hu | constructor; [intros [] | constructor] |].
    intros x Hx [<- | []]. now apply Hnew.
Qed.

Lemma run_synced cs : forall st,
  synced st -> List.NoDup (ids (db st) ++ List.map c_uuid cs) ->
  synced (run st cs) /\ ids (db (run st cs)) = ids (db st) ++ List.map c_uuid cs.
Proof.
  induction cs as [|c cs IH]; intros st Hs Hnd.
  - cbn. rewrite app_nil_r. auto.
  - cbn [List.map] in *.
    assert (Hfresh : ~ In (c_uuid c) (ids (db st))).
    { intros Hin. apply List.NoDup_remove_2 in Hnd. apply Hnd.
      apply in_or_app. now left. }
    destruct (record_synced st c Hs Hfresh) as [Hrec Hs'].
    change (run st (c :: cs)) with (run (fst (record st c)) cs).
    assert (Hids : ids (db (fst (record st c))) = ids (db st) ++ [c_uuid c]).
    { rewrite Hrec. cbn [fst db]. unfold ids. now rewrite List.map_app. }
    destruct (IH (fst (record st c)) Hs') as [Hs'' Hids''].
    { rewrite Hids, <- app_assoc. exact Hnd. }
    split; [exact Hs''|]. rewrite Hids'', Hids, <- app_assoc. reflexivity.
Qed.

(** C1 (as amended): on a ledger that started empty, after any sequence of
    record calls (each with its own uuid) verifyChain reports valid = true
    and totalEntries = the number of calls.  If afterwards one row is altered
    in one hashed column other than sequence_number (timestamp, actor, action,
    target, details or previous_hash), and SHA-256 does not collide on the
    altered and the original payload, verifyChain reports valid = false,
    brokenAt = that row's sequence number, and the same totalEntries. *)
Theorem verifyChain_records_then_tamper (cs : list call) :
  List.NoDup (List.map c_uuid cs) ->
  let st := run (constructor []) cs in
  verifyChain st
  = {| valid := true; brokenAt := None; totalEntries := List.length cs |}
  /\ forall (r : Row.t) (a : alteration),
       In r (db st) -> keeps_sequence a = true -> changes a r ->
       (row_payload (alter a r) <> row_payload r ->
        Sha256.sha256_hex (row_payload (alter a r))
        <> Sha256.sha256_hex (row_payload r)) ->
       verifyChain (tamper (Row.sequence_number r) a st)
       = {| valid := false; brokenAt := Some (Row.sequence_number r);
            totalEntries := List.length cs |}.
Proof.
  intros Hnd st.
  destruct (run_grown cs (constructor []) 0 grown_fresh Hnd) as [Hg _].
  fold st in Hg. cbn [Nat.add] in Hg. split.
  - now apply verifyChain_grown.
  - intros r a Hin Hk Hch Hfree. apply verifyChain_tamper; auto.
    now apply Hfree, alter_changes_payload.
Qed.

Lemma verifyChain_records_then_tamper_witness :
  verifyChain AuditScenario.ledger
  = {| valid := true; brokenAt := None; totalEntries := 3 |}
  /\ verifyChain (tamper 2 (SetAction "tampered") AuditScenario.ledger)
     = {| valid := false; brokenAt := Some 2; totalEntries := 3 |}.
Proof.
  assert (Hnd : List.NoDup (List.map c_uuid [AuditScenario.c1; AuditScenario.c2;
                                             AuditScenario.c3])).
  { cbn. repeat constructor; cbn; intuition discriminate. }
  destruct (verifyChain_records_then_tamper _ Hnd) as [H1 H2].
  split; [exact H1|].
  apply (H2 (row_of (entry_of (run (constructor []) [AuditScenario.c1]) AuditScenario.c2))
            (SetAction "tampered")).
  - vm_compute. right. left. reflexivity.
  - reflexivity.
  - cbn. discriminate.
  - intros _. apply String.eqb_neq. vm_compute. reflexivity.
Defined.

(** C1, the claim as stated, fails when the altered hashed column is
    sequence_number: renumbering row 2 of the three-entry ledger to 5 moves
    it behind row 3 in the ORDER BY, and the chain is reported broken at 3,
    which is neither the old nor the new number of the altered row. *)
Lemma verifyChain_renumbered_row_counterexample :
  let res := verifyChain (tamper 2 (SetSequenceNumber 5) AuditScenario.ledger) in
  valid res = false /\ brokenAt res = Some 3
  /\ brokenAt res <> Some 2 /\ brokenAt res <> Some 5.
Proof. vm_compute. repeat split; discriminate. Qed.

(* One row altered in two columns at once can keep the hashed string, and
   then the chain still verifies: the separator is not escaped. *)
Example verifyChain_separator_shift :
  let c := {| c_uuid := "e1"; c_now := "2026-01-01T00:00:00.000Z";
              c_actor := "x|y"; c_action := "z"; c_target := "t"; c_details := [] |} in
  let st := run (constructor []) [c] in
  let st' := tamper 1 (SetAction "y|z") (tamper 1 (SetActor "x") st) in
  db st' <> db st /\ valid (verifyChain st') = true.
Proof. vm_compute. split; [discriminate | reflexivity]. Qed.







End AuditTrailProofs.

(* --------------------------------------------------------------------- *)
(*  Bounded autonomy: overrides and value thresholds                      *)
(* --------------------------------------------------------------------- *)

Module BoundedAutonomyProofs.
Import BoundedAutonomy.

Definition wire_transfer : ToolDefinition :=
  {| name := "wire_transfer"; requiresApproval := true; riskLevel := critical |}.

(* an operation that leaves the override stored under [n] alone *)
Definition keeps_override (n : string) (o : op) : Prop :=
  match o with
  | OpSetOverride m _ | OpRemoveOverride m => m <> n
  | _ => True
  end.

Lemma recordDecision_overrides e now t d why :
  overrides (recordDecision e now t d why) = overrides e.
Proof. reflexivity. Qed.

Lemma validateValueThreshold_overrides e now t v :
  overrides (fst (validateValueThreshold e now t v)) = overrides e.
Proof.
  unfold validateValueThreshold.
  destruct (threshold_truthy _); [|reflexivity].
  destruct (_ <? _); reflexivity.
Qed.

Lemma step_keeps_override n o e :
  keeps_override n o -> overrides (step e o) !! n = overrides e !! n.
Proof.
  destruct o; cbn [step keeps_override]; intros H.
  - cbn [setOverride overrides]. now rewrite lookup_insert_ne.
  - cbn [removeOverride overrides]. now rewrite lookup_delete_ne.
  - reflexivity.
  - reflexivity.
  - now rewrite validateValueThreshold_overrides.
Qed.

Lemma run_keeps_override n ops : forall e,
  List.Forall (keeps_override n) ops ->
  overrides (fold_left step ops e) !! n = overrides e !! n.
Proof.
  induction ops as [|o ops IH]; intros e H; [reflexivity|].
  apply List.Forall_cons_iff in H as [Ho Hops]. cbn [fold_left].
  rewrite IH by exact Hops. now apply step_keeps_override.
Qed.

Lemma getAuthority_override e t a :
  overrides e !! name t = Some a -> getAuthority e t = a.
Proof. unfold getAuthority. now intros ->. Qed.

(** C3 (as amended): for every tool with requiresApproval = true and
    riskLevel = critical, in every engine state that holds no override under
    the tool's name, getAuthority returns require_human. *)
Theorem getAuthority_critical_without_override (e : Engine) (t : ToolDefinition) :
  overrides e !! name t = None ->
  requiresApproval t = true ->
  riskLevel t = critical ->
  getAuthority e t = require_human.
Proof.
  intros Ho Ha Hr. unfold getAuthority. now rewrite Ho, Ha, Hr.
Qed.

Lemma getAuthority_critical_without_override_witness :
  getAuthority (reach [OpSetPolicies []; OpSetOverride "other_tool" auto_approve])
               wire_transfer
  = require_human.
Proof.
  apply getAuthority_critical_without_override.
  - vm_compute. reflexivity.
  - reflexivity.
  - reflexivity.
Defined.

(** C3, the claim as stated, fails: after setOverride for the tool's name the
    override is what getAuthority returns, also for a critical tool that
    declares requiresApproval. *)
Lemma getAuthority_critical_override_counterexample :
  requiresApproval wire_transfer = true
  /\ riskLevel wire_transfer = critical
  /\ getAuthority (reach [OpSetOverride "wire_transfer" auto_approve]) wire_transfer
     <> require_human.
Proof. vm_compute. repeat split; discriminate. Qed.

(** C4: once setOverride(n, a) has run, and as long as no later setOverride
    or removeOverride names n, getAuthority returns a for every tool named n,
    whatever its requiresApproval flag and riskLevel; so canAutoExecute is
    true for a critical tool declaring requiresApproval once its override is
    auto_approve. *)
Theorem override_takes_precedence (e : Engine) (n : string) (a : AuthorityLevel)
    (ops : list op) (t : ToolDefinition) :
  name t = n ->
  List.Forall (keeps_override n) ops ->
  getAuthority (fold_left step ops (setOverride e n a)) t = a
  /\ canAutoExecute (fold_left step ops (setOverride e n auto_approve))
       {| name := n; requiresApproval := true; riskLevel := critical |} = true.
Proof.
  intros Hn Hops. split.
  - apply getAuthority_override. rewrite Hn, run_keeps_override by exact Hops.
    cbn [setOverride overrides]. apply lookup_insert_eq.
  - unfold canAutoExecute. rewrite (getAuthority_override _ _ auto_approve); [reflexivity|].
    cbn [name]. rewrite run_keeps_override by exact Hops.
    cbn [setOverride overrides]. apply lookup_insert_eq.
Qed.

Lemma override_takes_precedence_witness :
  getAuthority
    (fold_left step [OpSetPolicies []; OpRemoveOverride "other_tool"]
       (setOverride constructor "wire_transfer" log_only)) wire_transfer
  = log_only
  /\ canAutoExecute
       (fold_left step [OpSetPolicies []; OpRemoveOverride "other_tool"]
          (setOverride constructor "wire_transfer" auto_approve)) wire_transfer
     = true.
Proof.
  apply (override_takes_precedence constructor "wire_transfer" log_only
           [OpSetPolicies []; OpRemoveOverride "other_tool"] wire_transfer).
  - reflexivity.
  - repeat constructor; cbn; discriminate.
Defined.
(* -- validateValueThreshold --------------------------------------------- *)

Definition transfer : ToolDefinition :=
  {| name := "transfer"; requiresApproval := false; riskLevel := high |}.

(* the default table with a threshold put on the high-risk policy *)
Definition with_high_threshold (limit : Z) : Engine :=
  setPolicies constructor
    [ Policy.mk critical require_human None true;
      Policy.mk high require_approval (Some limit) true;
      Policy.mk medium log_only None true;
      Policy.mk low auto_approve None false ].

Lemma includes_prefix (p x : string) : includes (p +:+ x) p = true.
Proof.
  destruct (p +:+ x) eqn:E; cbn [includes]; rewrite <- E;
    now rewrite StringFacts.prefix_append.
Qed.

(* With a threshold other than 0 the escalation is as documented: the base
   authority goes up one step and one decision is appended to the log. *)
Lemma validateValueThreshold_escalates e now t est p limit :
  find_policy e t = Some p ->
  Policy.maxAutoApproveValue p = Some limit ->
  limit <> 0 ->
  limit < est ->
  let escalated := escalate (getAuthority e t) in
  let entry := {| timestamp := now; tool := name t; decision := escalated;
                  reason := "Value threshold exceeded: $" +:+ Js.string_of_Z est |} in
  validateValueThreshold e now t est
  = (recordDecision e now t escalated (reason entry), escalated)
  /\ includes (reason entry) "Value threshold exceeded" = true
  /\ (Z.of_nat (List.length (auditLog e)) < 10000 ->
      auditLog (fst (validateValueThreshold e now t est)) = auditLog e ++ [entry]).
Proof.
  intros Hp Hm Hz Hlt escalated entry.
  assert (Hv : validateValueThreshold e now t est
               = (recordDecision e now t escalated (reason entry), escalated)).
  { unfold validateValueThreshold, threshold_truthy. rewrite Hp, Hm.
    destruct (Z.eqb_spec limit 0); [contradiction|].
    destruct (Z.ltb_spec limit est); [reflexivity | lia]. }
  split; [exact Hv|]. split.
  - cbn [entry reason].
    change "Value threshold exceeded: $"%string
      with ("Value threshold exceeded" +:+ ": $")%string.
    rewrite StringFacts.append_assoc. apply includes_prefix.
  - intros Hlen. rewrite Hv. cbn [fst recordDecision auditLog].
    rewrite List.length_app. cbn [List.length].
    destruct (Z.ltb_spec 10000 (Z.of_nat (List.length (auditLog e) + 1))); [lia|].
    reflexivity.
Qed.

(* Scenario 4: high risk, no requiresApproval, threshold 1000, value 1500. *)
Example validateValueThreshold_scenario :
  let out := validateValueThreshold (with_high_threshold 1000) 0 transfer 1500 in
  snd out = require_human
  /\ List.map reason (auditLog (fst out)) = ["Value threshold exceeded: $1500"%string]
  /\ List.map (fun d => includes (reason d) "Value threshold exceeded")
              (auditLog (fst out)) = [true].
Proof. vm_compute. repeat split. Qed.

(** C6: the code departs from the claim when the policy defines
    maxAutoApproveValue = 0.  The guard policy?.maxAutoApproveValue && ...
    reads 0 as absent, so an estimated value of 1, strictly above the
    threshold, is neither escalated nor logged: the base authority comes back
    and the decision log stays empty. *)
Theorem validateValueThreshold_zero_threshold :
  let e := with_high_threshold 0 in
  option_map Policy.maxAutoApproveValue (find_policy e transfer) = Some (Some 0)
  /\ validateValueThreshold e 0 transfer 1 = (e, require_approval)
  /\ escalate (getAuthority e transfer) = require_human
  /\ auditLog (fst (validateValueThreshold e 0 transfer 1)) = [].
Proof. vm_compute. repeat split. Qed.
End BoundedAutonomyProofs.

(* --------------------------------------------------------------------- *)
(*  A2A message bus                                                       *)
(* --------------------------------------------------------------------- *)

Module A2AProofs.
Import A2A.

(* every message held in some mailbox, mailbox by mailbox *)
Definition held (qs : list (string * list A2AMessage)) : list A2AMessage :=
  List.concat (List.map snd qs).

Definition count (p : A2AMessage -> bool) (l : list A2AMessage) : nat :=
  List.length (List.filter p l).

Definition has_id (i : string) (m : A2AMessage) : bool := String.eqb (id m) i.

Lemma slots_held i st : slots i st = count (has_id i) (held (queues st)).
Proof. reflexivity. Qed.

Lemma count_app p l1 l2 : count p (l1 ++ l2) = (count p l1 + count p l2)%nat.
Proof. unfold count. now rewrite List.filter_app, List.length_app. Qed.

Lemma held_cons k q qs : held ((k, q) :: qs) = q ++ held qs.
Proof. reflexivity. Qed.

(* push_to, one mailbox at a time *)
Lemma push_to_cons a m k q qs :
  push_to a m ((k, q) :: qs)
  = if String.eqb k a then (a, q ++ [m]) :: qs else (k, q) :: push_to a m qs.
Proof.
  unfold push_to. cbn [map_get map_set].
  destruct (String.eqb k a); [reflexivity|].
  now destruct (map_get a qs).
Qed.

Lemma held_push_to_count p a m qs :
  count p (held (push_to a m qs)) = (count p (held qs) + count p [m])%nat.
Proof.
  induction qs as [|[k q] qs IH]; [reflexivity|].
  rewrite push_to_cons. destruct (String.eqb k a).
  - rewrite !held_cons, !count_app. lia.
  - rewrite !held_cons, !count_app, IH. lia.
Qed.

Lemma held_push_to_in a m qs x :
  In x (held (push_to a m qs)) -> In x (held qs) \/ x = m.
Proof.
  induction qs as [|[k q] qs IH].
  - cbn. intuition.
  - rewrite push_to_cons. destruct (String.eqb k a); rewrite !held_cons.
    + rewrite <- app_assoc. intros H. apply in_app_or in H as [H | H].
      * left. apply in_or_app. now left.
      * apply in_app_or in H as [[<- | []] | H]; [now right|].
        left. apply in_or_app. now right.
    + intros H. apply in_app_or in H as [H | H].
      * left. apply in_or_app. now left.
      * apply IH in H as [H | H]; [|now right]. left. apply in_or_app. now right.
Qed.

Lemma map_set_fresh {V} a (v : V) qs :
  map_get a qs = None -> map_set a v qs = qs ++ [(a, v)].
Proof.
  induction qs as [|[k q] qs IH]; [reflexivity|]. cbn [map_get map_set].
  destruct (String.eqb k a); [discriminate|]. intros H. cbn [app]. now rewrite IH.
Qed.

Lemma held_app qs1 qs2 : held (qs1 ++ qs2) = held qs1 ++ held qs2.
Proof. unfold held. now rewrite List.map_app, List.concat_app. Qed.

Lemma held_registerAgent st a : held (queues (registerAgent st a)) = held (queues st).
Proof.
  unfold registerAgent, map_has. destruct (map_get a (queues st)) eqn:E; [reflexivity|].
  cbn [queues]. rewrite (map_set_fresh _ _ _ E), held_app. cbn. now rewrite app_nil_r.
Qed.

(* the mailboxes after a broadcast *)
Definition deliver (from : string) (msg : A2AMessage)
    (qs : list (string * list A2AMessage)) : list (string * list A2AMessage) :=
  List.map (fun kq : string * list A2AMessage =>
              if negb (String.eqb (fst kq) from) then (fst kq, snd kq ++ [msg]) else kq) qs.

Lemma held_deliver_count p from msg qs :
  p msg = false -> count p (held (deliver from msg qs)) = count p (held qs).
Proof.
  intros Hp. induction qs as [|[k q] qs IH]; [reflexivity|].
  cbn [deliver List.map fst snd]. fold (deliver from msg qs).
  destruct (negb (String.eqb k from)); rewrite !held_cons, !count_app, IH; [|reflexivity].
  unfold count at 2. cbn [List.filter]. rewrite Hp. cbn. lia.
Qed.

Lemma held_deliver_in from msg qs x :
  In x (held (deliver from msg qs)) -> In x (held qs) \/ x = msg.
Proof.
  induction qs as [|[k q] qs IH]; [now left|].
  cbn [deliver List.map fst snd]. fold (deliver from msg qs).
  destruct (negb (String.eqb k from)); rewrite !held_cons; intros H;
    apply in_app_or in H as [H | H].
  - apply in_app_or in H as [H | [<- | []]]; [|now right].
    left. apply in_or_app. now left.
  - apply IH in H as [H | H]; [|now right]. left. apply in_or_app. now right.
  - left. apply in_or_app. now left.
  - apply IH in H as [H | H]; [|now right]. left. apply in_or_app. now right.
Qed.

(* what one purge keeps and what it drops *)
Lemma filter_concat {A} (f : A -> bool) (ls : list (list A)) :
  List.filter f (List.concat ls) = List.concat (List.map (List.filter f) ls).
Proof.
  induction ls as [|l ls IH]; [reflexivity|].
  cbn [List.concat List.map]. now rewrite List.filter_app, IH.
Qed.

Lemma held_purgeExpired st now :
  held (queues (purgeExpired st now))
  = List.filter (fun m => negb (is_expired now m)) (held (queues st)).
Proof.
  unfold purgeExpired, held. cbn [queues].
  rewrite filter_concat, !List.map_map. reflexivity.
Qed.

Lemma emitted_purgeExpired st now :
  emitted (purgeExpired st now)
  = emitted st ++ List.map a2a_expired (List.filter (is_expired now) (held (queues st))).
Proof.
  unfold purgeExpired, held. cbn [emitted].
  now rewrite filter_concat, !List.map_map.
Qed.
Definition expired_with (i : string) (e : Event) : bool :=
  match e with
  | a2a_expired m => has_id i m
  | _ => false
  end.

Lemma expirations_emitted i st :
  expirations i st = List.length (List.filter (expired_with i) (emitted st)).
Proof. reflexivity. Qed.

Lemma count_split p q l :
  (count p (List.filter (fun m => negb (q m)) l) + count p (List.filter q l))%nat
  = count p l.
Proof.
  unfold count. induction l as [|x l IH]; [reflexivity|].
  cbn [List.filter]. destruct (q x), (p x) eqn:E; cbn [negb List.filter List.length];
    rewrite ?E; cbn [List.length]; lia.
Qed.

Lemma expired_events_count i l :
  List.length (List.filter (expired_with i) (List.map a2a_expired l)) = count (has_id i) l.
Proof.
  unfold count. induction l as [|x l IH]; [reflexivity|].
  cbn [List.map List.filter expired_with]. destruct (has_id i x); cbn [List.length]; lia.
Qed.

Lemma acknowledge_all_queues ms : forall st,
  queues (fold_left (fun s m => acknowledge s (id m)) ms st) = queues st
  /\ emitted (fold_left (fun s m => acknowledge s (id m)) ms st) = emitted st.
Proof.
  induction ms as [|m ms IH]; intros st; [split; reflexivity|].
  cbn [fold_left]. destruct (IH (acknowledge st (id m))) as [-> ->]. split; reflexivity.
Qed.

Lemma has_id_other i u from to ty body now ttl_ :
  u <> i ->
  has_id i {| id := u; fromAgent := from; toAgent := to; type := ty; payload := body;
              timestamp := now; ttl := ttl_ |} = false.
Proof. intros H. unfold has_id. cbn [id]. now apply String.eqb_neq. Qed.

Lemma count_single_same i m : id m = i -> count (has_id i) [m] = 1%nat.
Proof.
  intros <-. unfold count, has_id. cbn [List.filter]. now rewrite String.eqb_refl.
Qed.

Lemma count_single_other i m : has_id i m = false -> count (has_id i) [m] = 0%nat.
Proof. intros H. unfold count. cbn [List.filter]. now rewrite H. Qed.

(* One operation that draws another uuid neither adds a copy of message i
   nor loses one silently: a copy leaves a mailbox only together with its
   a2a:expired event. *)
Lemma step_conserves i o st :
  draws_other i o ->
  (slots i (step st o) + expirations i (step st o))%nat
  = (slots i st + expirations i st)%nat
  /\ (slots i (step st o) <= slots i st)%nat
  /\ (forall x, In x (held (queues (step st o))) -> id x = i -> In x (held (queues st))).
Proof.
  unfold draws_other. rewrite !slots_held, !expirations_emitted.
  destruct o as [u now f t b l | o' u now f b l | u now f b l | a limit now | j | a | now];
    cbn [step op_uuid]; intros Hu.
  - assert (Hne : u <> i) by congruence.
    cbn [send fst queues emitted].
    rewrite held_push_to_count, (count_single_other i) by now apply has_id_other.
    rewrite List.filter_app, List.length_app. cbn.
    repeat split; try lia.
    intros x Hx Hid. apply held_push_to_in in Hx as [Hx | ->]; [exact Hx|].
    cbn [id] in Hid. contradiction.
  - assert (Hne : u <> i) by congruence.
    unfold respond. destruct (find_original o' (queues st)) as [orig|];
      [|cbn [fst]; repeat split; auto].
    cbn [fst acknowledge queues emitted].
    rewrite held_push_to_count, (count_single_other i) by now apply has_id_other.
    repeat split; try lia.
    intros x Hx Hid. apply held_push_to_in in Hx as [Hx | ->]; [exact Hx|].
    cbn [id] in Hid. contradiction.
  - assert (Hne : u <> i) by congruence.
    cbn [broadcast fst queues emitted].
    match goal with |- context [List.map ?g (queues st)] =>
      change (List.map g (queues st)) with (deliver f
        {| id := u; fromAgent := f; toAgent := "*"; type := broadcast_type;
           payload := b; timestamp := now; ttl := l |} (queues st)) end.
    rewrite held_deliver_count by now apply has_id_other.
    rewrite List.filter_app, List.length_app. cbn.
    repeat split; try lia.
    intros x Hx Hid. apply held_deliver_in in Hx as [Hx | ->]; [exact Hx|].
    cbn [id] in Hid. contradiction.
  - unfold consume. cbn [fst].
    destruct (acknowledge_all_queues (receive st a limit now) st) as [-> ->].
    repeat split; auto.
  - cbn [acknowledge queues emitted]. repeat split; auto.
  - rewrite held_registerAgent.
    assert (He : emitted (registerAgent st a) = emitted st).
    { unfold registerAgent. now destruct (map_has a (queues st)). }
    rewrite He. repeat split; auto.
  - rewrite held_purgeExpired, emitted_purgeExpired.
    rewrite List.filter_app, List.length_app, expired_events_count.
    pose proof (count_split (has_id i) (is_expired now) (held (queues st))) as Hsplit.
    repeat split; try lia.
    intros x Hx _. apply List.filter_In in Hx. tauto.
Qed.

Lemma run_conserves i ops : forall st,
  List.Forall (draws_other i) ops ->
  (slots i (run st ops) + expirations i (run st ops))%nat
  = (slots i st + expirations i st)%nat
  /\ (slots i (run st ops) <= slots i st)%nat
  /\ (forall x, In x (held (queues (run st ops))) -> id x = i -> In x (held (queues st))).
Proof.
  induction ops as [|o ops IH]; intros st H; [repeat split; auto|].
  apply List.Forall_cons_iff in H as [Ho Hops].
  change (run st (o :: ops)) with (run (step st o) ops).
  destruct (IH (step st o) Hops) as (H1 & H2 & H3).
  destruct (step_conserves i o st Ho) as (H4 & H5 & H6).
  repeat split; try lia.
  intros x Hx Hid. apply H6; [|exact Hid]. now apply H3.
Qed.

Lemma count_zero_iff p l : count p l = 0%nat <-> forall x, In x l -> p x = false.
Proof.
  unfold count. induction l as [|y l IH]; cbn [List.filter].
  - split; [intros _ x [] | reflexivity].
  - destruct (p y) eqn:E; cbn [List.length]; split.
    + discriminate.
    + intros H. specialize (H y (or_introl eq_refl)). congruence.
    + intros H x [<- | Hx]; [exact E | now apply IH].
    + intros H. apply IH. intros x Hx. apply H. now right.
Qed.

(* receive hands out only messages whose ttl has not elapsed *)
Lemma firstn_in {A} n (l : list A) x : In x (firstn n l) -> In x l.
Proof.
  revert l. induction n as [|n IH]; intros [|y l]; cbn [firstn In]; try tauto.
  intros [<- | H]; [now left | right; now apply IH].
Qed.

Lemma slice0_in {A} limit (l : list A) x : In x (Js.slice0 limit l) -> In x l.
Proof. unfold Js.slice0. destruct (0 <=? limit); apply firstn_in. Qed.

Lemma map_get_held a qs q x :
  map_get a qs = Some q -> In x q -> In x (held qs).
Proof.
  induction qs as [|[k q'] qs IH]; [discriminate|]. cbn [map_get].
  rewrite held_cons. destruct (String.eqb k a).
  - intros [= ->] Hx. apply in_or_app. now left.
  - intros H Hx. apply in_or_app. right. now apply IH.
Qed.

Lemma receive_in st agentId limit now m :
  In m (receive st agentId limit now) ->
  now - timestamp m < ttl m
  /\ set_has (id m) (acknowledged st) = false
  /\ In m (held (queues st)).
Proof.
  unfold receive. intros H. apply slice0_in in H.
  apply List.filter_In in H as [H Hlive]. apply List.filter_In in H as [H Hack].
  split; [now apply Z.ltb_lt|]. split; [now apply negb_true_iff|].
  destruct (map_get agentId (queues st)) as [q|] eqn:E; [|destruct H].
  now apply (map_get_held agentId _ q).
Qed.
Lemma slots_zero_no_id i st x :
  slots i st = 0%nat -> In x (held (queues st)) -> id x <> i.
Proof.
  rewrite slots_held, count_zero_iff. intros H Hx E.
  specialize (H x Hx). unfold has_id in H. rewrite E, String.eqb_refl in H. discriminate.
Qed.

Lemma purge_is_step st now : purgeExpired st now = step st (OpPurgeExpired now).
Proof. reflexivity. Qed.

Lemma draws_other_purge i now : draws_other i (OpPurgeExpired now).
Proof. unfold draws_other. cbn. discriminate. Qed.

(* the mailboxes a broadcast from [from] reaches *)
Definition recipients (from : string) (st : A2AProtocol) : list string :=
  List.filter (fun k => negb (String.eqb k from)) (getRegisteredAgents st).

Lemma held_deliver_slots i from msg qs :
  id msg = i ->
  count (has_id i) (held (deliver from msg qs))
  = (count (has_id i) (held qs)
     + List.length (List.filter (fun k => negb (String.eqb k from)) (List.map fst qs)))%nat.
Proof.
  intros Hid. induction qs as [|[k q] qs IH]; [reflexivity|].
  cbn [deliver List.map fst snd List.filter]. fold (deliver from msg qs).
  destruct (negb (String.eqb k from)); rewrite !held_cons, !count_app, IH.
  - rewrite (count_single_same i msg Hid). cbn [List.length]. lia.
  - lia.
Qed.

Lemma broadcast_slots st uuid now from body ttl_ :
  slots uuid (fst (broadcast st uuid now from body ttl_))
  = (slots uuid st + List.length (recipients from st))%nat.
Proof.
  rewrite !slots_held. cbn [broadcast fst queues].
  match goal with |- context [List.map ?g (queues st)] =>
    change (List.map g (queues st)) with (deliver from
      {| id := uuid; fromAgent := from; toAgent := "*"; type := broadcast_type;
         payload := body; timestamp := now; ttl := ttl_ |} (queues st)) end.
  now rewrite (held_deliver_slots uuid).
Qed.

(* A purge emits one a2a:expired per mailbox copy it drops. *)
Lemma purge_expirations i st now :
  (forall x, In x (held (queues st)) -> id x = i -> is_expired now x = true) ->
  expirations i (purgeExpired st now) = (expirations i st + slots i st)%nat
  /\ slots i (purgeExpired st now) = 0%nat.
Proof.
  intros Hexp.
  assert (Hz : slots i (purgeExpired st now) = 0%nat).
  { rewrite slots_held, held_purgeExpired. apply count_zero_iff.
    intros x Hx. apply List.filter_In in Hx as [Hx Hlive].
    destruct (has_id i x) eqn:E; [|reflexivity].
    unfold has_id in E. apply String.eqb_eq in E.
    rewrite (Hexp x Hx E) in Hlive. discriminate. }
  split; [|exact Hz].
  destruct (step_conserves i (OpPurgeExpired now) st (draws_other_purge i now))
    as (Hsum & _ & _).
  rewrite <- purge_is_step in Hsum. lia.
Qed.

(** C7 (as amended): a message placed by send under a fresh id is held in
    one mailbox; whatever the bus does next (other sends, replies, broadcasts,
    acknowledgements, registrations, purges), after a purge that runs once the
    ttl has elapsed exactly one a2a:expired event has been emitted for it, no
    mailbox holds it and receive returns it to no actor.  In general receive
    only returns messages whose ttl has not elapsed, a purge emits one
    a2a:expired per mailbox holding the expired message, and a broadcast is
    held by the mailbox of every registered agent but the sender (so it fires
    once per recipient). *)
Theorem expiry_once_per_mailbox (st : A2AProtocol) (uuid from to : string)
    (body : Json.object) (t0 ttl_ t1 : Z) (ops1 ops2 : list op) :
  slots uuid st = 0%nat ->
  expirations uuid st = 0%nat ->
  List.Forall (draws_other uuid) ops1 ->
  List.Forall (draws_other uuid) ops2 ->
  ttl_ <= t1 - t0 ->
  let st1 := fst (send st uuid t0 from to body ttl_) in
  let st3 := run (purgeExpired (run st1 ops1) t1) ops2 in
  slots uuid st1 = 1%nat
  /\ expirations uuid st3 = 1%nat
  /\ slots uuid st3 = 0%nat
  /\ (forall agentId limit now m, In m (receive st3 agentId limit now) -> id m <> uuid)
  /\ (forall s agentId limit now m,
        In m (receive s agentId limit now) -> now - timestamp m < ttl m)
  /\ (forall s now m, In m (held (queues s)) -> is_expired now m = true ->
        (forall x, In x (held (queues s)) -> id x = id m -> x = m) ->
        expirations (id m) (purgeExpired s now)
        = (expirations (id m) s + slots (id m) s)%nat)
  /\ (forall s u now f b l,
        slots u (fst (broadcast s u now f b l))
        = (slots u s + List.length (recipients f s))%nat).
Proof.
  intros Hs0 He0 Hops1 Hops2 Httl st1 st3.
  set (m := snd (send st uuid t0 from to body ttl_)).
  assert (Hslots1 : slots uuid st1 = 1%nat).
  { unfold st1. cbn [send fst]. rewrite slots_held. cbn [queues].
    rewrite held_push_to_count, <- slots_held, Hs0.
    now rewrite count_single_same. }
  assert (Hexp1 : expirations uuid st1 = 0%nat).
  { unfold st1. cbn [send fst]. rewrite expirations_emitted in *. cbn [emitted].
    rewrite List.filter_app, List.length_app, He0. reflexivity. }
  assert (Honly1 : forall x, In x (held (queues st1)) -> id x = uuid -> x = m).
  { unfold st1. cbn [send fst queues]. intros x Hx Hid.
    apply held_push_to_in in Hx as [Hx | ->]; [|reflexivity].
    now apply (slots_zero_no_id uuid st x) in Hx. }
  destruct (run_conserves uuid ops1 st1 Hops1) as (Hsum & _ & Hfrom).
  destruct (purge_expirations uuid (run st1 ops1) t1) as [Hp Hz].
  { intros x Hx Hid. rewrite (Honly1 x (Hfrom x Hx Hid) Hid).
    unfold is_expired, m. cbn [send snd ttl timestamp]. now apply Z.leb_le. }
  destruct (run_conserves uuid ops2 (purgeExpired (run st1 ops1) t1) Hops2)
    as (Hsum3 & Hle3 & _).
  fold st3 in Hsum3, Hle3.
  assert (Hz3 : slots uuid st3 = 0%nat) by lia.
  split; [exact Hslots1|]. split; [lia|]. split; [exact Hz3|]. split.
  { intros agentId limit now m' Hin. apply receive_in in Hin as (_ & _ & Hin).
    now apply (slots_zero_no_id uuid st3). }
  split.
  { intros s agentId limit now m' Hin. now apply receive_in in Hin as (Hlive & _). }
  split; [|intros; apply broadcast_slots].
  intros s now m' Hin Hexp Honly. apply purge_expirations.
  intros x Hx Hid. now rewrite (Honly x Hx Hid).
Qed.

Lemma expiry_once_per_mailbox_witness :
  expirations "m1"
    (run (purgeExpired
            (run (fst (send constructor "m1" 0 "hippocrates" "atlas" [] 300000))
                 [OpRegisterAgent "apollo"; OpPurgeExpired 60000]) 300000)
         [OpPurgeExpired 360000; OpSend "m2" 360001 "atlas" "hippocrates" [] 10])
  = 1%nat.
Proof.
  refine (proj1 (proj2 (expiry_once_per_mailbox constructor "m1" "hippocrates" "atlas" []
                          0 300000 300000
                          [OpRegisterAgent "apollo"; OpPurgeExpired 60000]
                          [OpPurgeExpired 360000;
                           OpSend "m2" 360001 "atlas" "hippocrates" [] 10]
                          _ _ _ _ _))).
  - reflexivity.
  - reflexivity.
  - repeat constructor; unfold draws_other; cbn; discriminate.
  - repeat constructor; unfold draws_other; cbn; discriminate.
  - lia.
Defined.

(** C7, the claim as stated, fails for a broadcast: the one message sits in
    the mailbox of every recipient, and the purge emits a2a:expired once per
    mailbox, here twice. *)
Lemma expiry_broadcast_counterexample :
  let st := run constructor
              [OpRegisterAgent "orchestrator"; OpRegisterAgent "atlas";
               OpRegisterAgent "hippocrates";
               OpBroadcast "b1" 0 "orchestrator" [] 1000;
               OpPurgeExpired 60000] in
  expirations "b1" st = 2%nat /\ expirations "b1" st <> 1%nat.
Proof. vm_compute. split; [reflexivity | discriminate]. Qed.
(* -- directed delivery --------------------------------------------------- *)

Lemma map_get_map_set {V} a (v : V) qs : map_get a (map_set a v qs) = Some v.
Proof.
  induction qs as [|[k q] qs IH]; cbn [map_set map_get].
  - now rewrite String.eqb_refl.
  - destruct (String.eqb k a) eqn:E; cbn [map_get]; [now rewrite String.eqb_refl|].
    now rewrite E.
Qed.

Lemma map_get_push_to a m qs :
  map_get a (push_to a m qs)
  = Some (match map_get a qs with Some q => q ++ [m] | None => [m] end).
Proof. unfold push_to. destruct (map_get a qs); apply map_get_map_set. Qed.

Lemma map_get_purged a now qs :
  map_get a (List.map (fun kq : string * list A2AMessage =>
                         (fst kq, List.filter (fun m => negb (is_expired now m)) (snd kq)))
                      qs)
  = option_map (List.filter (fun m => negb (is_expired now m))) (map_get a qs).
Proof.
  induction qs as [|[k q] qs IH]; [reflexivity|].
  cbn [List.map map_get fst snd]. now destruct (String.eqb k a).
Qed.

Lemma set_has_snoc x l : set_has x (l ++ [x]) = true.
Proof.
  unfold set_has. rewrite existsb_app. cbn. rewrite String.eqb_refl.
  now rewrite orb_true_r.
Qed.

Lemma slice_last_snoc {A} n (l : list A) x :
  0 < n -> exists l', Js.slice_last n (l ++ [x]) = l' ++ [x].
Proof.
  intros Hn. unfold Js.slice_last. rewrite List.length_app. cbn [List.length].
  set (k := Z.to_nat (Z.of_nat (List.length l + 1) - n)).
  assert (Hk : (k <= List.length l)%nat) by (unfold k; lia).
  exists (skipn k l). rewrite List.skipn_app.
  replace (k - List.length l)%nat with 0%nat by lia. reflexivity.
Qed.





Lemma slice0_nil {A} limit : Js.slice0 limit (@nil A) = [].
Proof. unfold Js.slice0. destruct (0 <=? limit); apply List.firstn_nil. Qed.




(* -- respond --------------------------------------------------------------- *)

Lemma find_none_all {A} (f : A -> bool) l :
  (forall x, In x l -> f x = false) -> List.find f l = None.
Proof.
  induction l as [|y l IH]; intros H; [reflexivity|]. cbn [List.find].
  rewrite (H y (or_introl eq_refl)). apply IH. intros x Hx. apply H. now right.
Qed.

Lemma find_original_none i qs :
  (forall x, In x (held qs) -> has_id i x = false) -> find_original i qs = None.
Proof.
  induction qs as [|[k q] qs IH]; intros H; [reflexivity|].
  cbn [find_original]. rewrite held_cons in H.
  rewrite (find_none_all _ q).
  - apply IH. intros x Hx. apply H, in_or_app. now right.
  - intros x Hx. apply (H x), in_or_app. now left.
Qed.

(** C10: when no mailbox holds a message with id originalMsgId, respond
    returns null and the bus is unchanged: no mailbox gains a message, the
    acknowledged set gains no id and no event is emitted. *)
Theorem respond_unknown_id (st : A2AProtocol) (originalMsgId uuid from : string)
    (now ttl_ : Z) (body : Json.object) :
  slots originalMsgId st = 0%nat ->
  respond st originalMsgId uuid now from body ttl_ = (st, None).
Proof.
  rewrite slots_held, count_zero_iff. intros H.
  unfold respond. now rewrite (find_original_none _ _ H).
Qed.

Lemma respond_unknown_id_witness :
  let st := fst (send constructor "m1" 0 "hippocrates" "atlas" [] 300000) in
  respond st "m0" "m2" 5 "atlas" [] 300000 = (st, None).
Proof.
  apply respond_unknown_id. reflexivity.
Defined.
End A2AProofs.

(* --------------------------------------------------------------------- *)
(*  Daemon task queue                                                     *)
(* --------------------------------------------------------------------- *)

Module DaemonProofs.
Import Types Daemon.








End DaemonProofs.

(* --------------------------------------------------------------------- *)
(*  Orchestrator.executeTask                                              *)
(* --------------------------------------------------------------------- *)

Module OrchestratorProofs.
Import Types Orchestrator.

(* the task as the handler receives it *)
Definition dispatched (clk : clock) (task : Task) : Task :=
  with_agent (with_started task (at_started clk)) (routeTask task).

(** C9: whether the handler returns or throws, the task leaves executeTask
    with completedAt and result set (result being the returned TaskResult)
    and startedAt set; when the handler throws an Error with message m, the
    returned TaskResult has success = false and errors = [m], and the same
    with String(v) for a thrown value v that is no Error; task:failed is
    emitted with those errors. *)
Theorem executeTask_marks_complete (handler : AgentRole -> Task -> outcome)
    (clk : clock) (task : Task) :
  let out := executeTask handler clk task in
  completedAt (task_after out) = Some (at_completed clk)
  /\ result (task_after out) = Some (returned out)
  /\ startedAt (task_after out) = Some (at_started clk)
  /\ (forall message,
        handler (routeTask task) (dispatched clk task) = Threw (ErrorObject message) ->
        success (returned out) = false
        /\ errors (returned out) = [message]
        /\ In (task_failed (id task) [message]) (events out))
  /\ (forall rendered,
        handler (routeTask task) (dispatched clk task) = Threw (OtherValue rendered) ->
        success (returned out) = false
        /\ errors (returned out) = [rendered]
        /\ In (task_failed (id task) [rendered]) (events out))
  /\ (forall r, handler (routeTask task) (dispatched clk task) = Returned r ->
        returned out = with_time r (at_end clk - at_start clk)).
Proof.
  intros out. unfold out, executeTask.
  change (routeTask (with_started task (at_started clk))) with (routeTask task).
  fold (dispatched clk task).
  destruct (handler (routeTask task) (dispatched clk task)) as [r | [m | v]];
    cbn [task_after returned events completedAt result startedAt with_done
         success errors error_text];
    do 3 (split; [reflexivity|]); (split; [|split]).
  - intros m [=].
  - intros v [=].
  - intros r' [= <-]. reflexivity.
  - intros m' [= <-]. split; [reflexivity|]. split; [reflexivity|]. right. now left.
  - intros v [=].
  - intros r [=].
  - intros m' [=].
  - intros v' [= <-]. split; [reflexivity|]. split; [reflexivity|]. right. now left.
  - intros r [=].
Qed.

Lemma executeTask_marks_complete_witness :
  let task := Daemon.T1 in
  let clk := {| at_start := 100; at_started := 100; at_completed := 130; at_end := 130 |} in
  let out := executeTask (fun _ _ => Threw (ErrorObject "boom")) clk task in
  success (returned out) = false
  /\ errors (returned out) = ["boom"%string]
  /\ completedAt (task_after out) = Some 130
  /\ result (task_after out) = Some (returned out).
Proof.
  destruct (executeTask_marks_complete (fun _ _ => Threw (ErrorObject "boom"))
              {| at_start := 100; at_started := 100; at_completed := 130; at_end := 130 |}
              Daemon.T1) as (Hc & Hr & _ & Hthrow & _).
  destruct (Hthrow "boom"%string eq_refl) as (Hs & He & _).
  exact (conj Hs (conj He (conj Hc Hr))).
Defined.
End OrchestratorProofs.

(* --------------------------------------------------------------------- *)
(*  Audit trail: reopening, rejected inserts, what verifyChain misses     *)
(* --------------------------------------------------------------------- *)

Module AuditQueriesProofs.
Import AuditTrail AuditQueries AuditTrailProofs.

(* A ledger is determined by its table once counter and lastHash agree
   with it. *)
Lemma synced_same_table s1 s2 :
  synced s1 -> synced s2 -> db s1 = db s2 -> s1 = s2.
Proof.
  intros [Hc1 Hg1 Hl1 _] [Hc2 Hg2 Hl2 _] Hdb.
  destruct s1 as [d1 n1 h1], s2 as [d2 n2 h2]. cbn [db sequenceCounter lastHash] in *.
  subst d2. f_equal; [congruence|].
  destruct d1 as [|r rows] eqn:E.
  - now rewrite Hg1, Hg2.
  - destruct (persisted_max_attained (r :: rows)) as (m & Hm & Em); [discriminate|].
    now rewrite (Hl1 m Hm Em), (Hl2 m Hm Em).
Qed.

(** X1: closing and reopening the ledger loses nothing: the constructor run
    on the table a ledger has written gives back that ledger, counter and
    last hash included, so later appends continue the same chain; getCount
    is the rows found at opening plus one per record call. *)
Theorem constructor_resumes (rows0 : table) (cs : list call) :
  List.NoDup (seqs rows0) ->
  List.NoDup (ids rows0 ++ List.map c_uuid cs) ->
  let st := run (constructor rows0) cs in
  constructor (db st) = st
  /\ getCount st = (List.length rows0 + List.length cs)%nat
  /\ forall more, run (constructor (db st)) more = run (constructor rows0) (cs ++ more).
Proof.
  intros Hseq Hnd st.
  pose proof (constructor_synced rows0 Hseq) as Hs0.
  rewrite <- (constructor_db rows0) in Hnd.
  destruct (run_synced cs (constructor rows0) Hs0 Hnd) as [Hs Hids]. fold st in Hs, Hids.
  assert (Hcount : getCount st = (List.length rows0 + List.length cs)%nat).
  { unfold getCount. rewrite <- (List.length_map Row.id). fold (ids (db st)).
    rewrite Hids, List.length_app, constructor_db. unfold ids.
    now rewrite !List.length_map. }
  assert (E : constructor (db st) = st).
  { apply synced_same_table.
    - apply constructor_synced, (synced_unique _ Hs).
    - exact Hs.
    - apply constructor_db. }
  split; [exact E|]. split; [exact Hcount|].
  intros more. rewrite E. unfold st, run. now rewrite fold_left_app.
Qed.

Lemma constructor_resumes_witness :
  constructor (db AuditScenario.ledger) = AuditScenario.ledger.
Proof.
  refine (proj1 (constructor_resumes []
                   [AuditScenario.c1; AuditScenario.c2; AuditScenario.c3] _ _)).
  - constructor.
  - cbn. repeat constructor; cbn; intuition discriminate.
Defined.
(* -- a rejected INSERT ------------------------------------------------- *)

Lemma violates_constraints_id rows r :
  In (Row.id r) (ids rows) -> violates_constraints rows r = true.
Proof.
  unfold violates_constraints, ids. rewrite in_map_iff. intros (x & E & Hx).
  apply existsb_exists. exists x. split; [exact Hx|].
  rewrite E, String.eqb_refl. reflexivity.
Qed.

Lemma sorted_snoc (l : list Z) (y : Z) :
  StronglySorted Z.le l -> (forall x, In x l -> x <= y) ->
  StronglySorted Z.le (l ++ [y]).
Proof.
  induction 1 as [|x l Hs IH Hx]; intros Hy; cbn [app].
  - repeat constructor.
  - constructor.
    + apply IH. intros z Hz. apply Hy. now right.
    + apply List.Forall_app. split; [exact Hx|].
      constructor; [|constructor]. apply Hy. now left.
Qed.

(** X2: when the INSERT of record is rejected because the uuid repeats a
    stored id, the call returns no entry and the table and lastHash stay as
    they were, but the counter has moved: the next accepted entry is numbered
    two above the last stored one while it still links to the last stored
    hash, and verifyChain accepts the table with the gap. *)
Theorem rejected_insert_skips_number (cs : list call) (c c' : call) :
  List.NoDup (List.map c_uuid cs) ->
  In (c_uuid c) (List.map c_uuid cs) ->
  ~ In (c_uuid c') (List.map c_uuid cs) ->
  let st := run (constructor []) cs in
  let st1 := fst (record st c) in
  let e := entry_of st1 c' in
  snd (record st c) = None
  /\ db st1 = db st /\ lastHash st1 = lastHash st
  /\ record st1 c'
     = ({| db := db st ++ [row_of e]; sequenceCounter := sequenceNumber e;
           lastHash := hash e |}, Some e)
  /\ sequenceNumber e = Z.of_nat (List.length cs) + 2
  /\ previousHash e = lastHash st
  /\ verifyChain (fst (record st1 c'))
     = {| valid := true; brokenAt := None; totalEntries := S (List.length cs) |}.
Proof.
  intros Hnd Hdup Hfresh st st1 e.
  destruct (run_grown cs (constructor []) 0 grown_fresh Hnd) as [Hg Hids].
  fold st in Hg, Hids. cbn [Nat.add app] in Hg, Hids.
  pose proof (grown_length _ _ Hg) as Hlen. destruct Hg as [Hs Hc Hch].
  assert (Hrej : record st c
                 = ({| db := db st; sequenceCounter := sequenceCounter st + 1;
                       lastHash := lastHash st |}, None)).
  { unfold record, db_insert. rewrite violates_constraints_id; [reflexivity|].
    cbn [row_of Row.id entry_of id]. now rewrite Hids. }
  assert (Est1 : st1 = {| db := db st; sequenceCounter := sequenceCounter st + 1;
                          lastHash := lastHash st |}).
  { unfold st1. now rewrite Hrej. }
  assert (Hacc : record st1 c'
                 = ({| db := db st ++ [row_of e]; sequenceCounter := sequenceNumber e;
                       lastHash := hash e |}, Some e)).
  { unfold record, db_insert. fold e. rewrite violates_constraints_false.
    - rewrite Est1. reflexivity.
    - rewrite Est1. unfold e. cbn [db row_of Row.id entry_of id]. now rewrite Hids.
    - rewrite Est1. cbn [db]. rewrite Hs. intros H. apply count_up_bounds in H.
      unfold e in H. rewrite Est1 in H.
      cbn [row_of Row.sequence_number entry_of sequenceNumber sequenceCounter] in H.
      lia. }
  split; [now rewrite Hrej|]. split; [now rewrite Est1|]. split; [now rewrite Est1|].
  split; [exact Hacc|].
  split; [unfold e; rewrite Est1; cbn [entry_of sequenceNumber sequenceCounter]; lia|].
  split; [unfold e; now rewrite Est1|].
  rewrite Hacc. cbn [fst]. rewrite verifyChain_loop. cbn [db].
  assert (Hsorted : StronglySorted Z.le (seqs (db st ++ [row_of e]))).
  { unfold seqs. rewrite List.map_app. fold (seqs (db st)). rewrite Hs.
    apply sorted_snoc; [apply count_up_sorted|].
    intros x Hx. apply count_up_bounds in Hx.
    unfold e. rewrite Est1.
    cbn [List.map row_of Row.sequence_number entry_of sequenceNumber sequenceCounter].
    lia. }
  rewrite select_all_asc_sorted by exact Hsorted.
  rewrite List.length_app, Hlen. cbn [List.length].
  replace (List.length cs + 1)%nat with (S (List.length cs)) by lia.
  apply (verify_rows_chain _ _ _ (hash e)).
  rewrite (chain_app _ _ _ _ Hch).
  assert (El : lastHash st1 = lastHash st) by now rewrite Est1.
  rewrite <- El. apply chain_single.
Qed.

Lemma rejected_insert_skips_number_witness :
  let st1 := fst (record AuditScenario.ledger AuditScenario.c2) in
  let c' := {| c_uuid := "e4"; c_now := "2026-01-01T00:00:03.000Z"; c_actor := "a1";
               c_action := "task_end"; c_target := "t1"; c_details := [] |} in
  snd (record AuditScenario.ledger AuditScenario.c2) = None
  /\ sequenceNumber (entry_of st1 c') = 5
  /\ valid (verifyChain (fst (record st1 c'))) = true.
Proof.
  destruct (rejected_insert_skips_number
              [AuditScenario.c1; AuditScenario.c2; AuditScenario.c3] AuditScenario.c2
              {| c_uuid := "e4"; c_now := "2026-01-01T00:00:03.000Z"; c_actor := "a1";
                 c_action := "task_end"; c_target := "t1"; c_details := [] |})
    as (H1 & _ & _ & _ & H5 & _ & H7).
  - cbn. repeat constructor; cbn; intuition discriminate.
  - cbn. right. left. reflexivity.
  - cbn. intuition discriminate.
  - cbv zeta. split; [exact H1|]. split; [exact H5|].
    cbv zeta in H7. exact (f_equal valid H7).
Defined.
(* -- what verifyChain does not see ---------------------------------------- *)

Lemma chain_prefix prev l1 l2 h :
  chain prev (l1 ++ l2) = Some h -> exists h1, chain prev l1 = Some h1.
Proof.
  revert prev. induction l1 as [|r l1 IH]; intros prev; cbn [app chain]; [eauto|].
  destruct (_ && _); [apply IH | discriminate].
Qed.

Lemma filter_numbered_prefix k rows : forall a m,
  seqs rows = count_up a m ->
  let kept := List.filter (fun r => Row.sequence_number r <=? k) rows in
  (exists rest, rows = kept ++ rest)
  /\ seqs kept = count_up a (List.length kept)
  /\ List.length kept = Nat.min (Z.to_nat (k - a + 1)) m.
Proof.
  induction rows as [|r rows IH]; intros a m Hs; cbn zeta.
  - destruct m; [|discriminate]. cbn. rewrite Nat.min_0_r. split; [now exists []|auto].
  - destruct m as [|m]; [discriminate|]. unfold seqs in Hs. cbn [List.map count_up] in Hs.
    injection Hs as Ha Hs. destruct (IH (a + 1) m Hs) as ((rest & Hrest) & Hk & Hlen).
    cbn [List.filter]. rewrite Ha.
    destruct (Z.leb_spec a k) as [Hle | Hgt].
    + split; [exists rest; cbn [app]; now rewrite <- Hrest|].
      split.
      * unfold seqs in *. cbn [List.map List.length count_up]. now rewrite Ha, Hk.
      * cbn [List.length]. rewrite Hlen.
        replace (Z.to_nat (k - a + 1)) with (S (Z.to_nat (k - (a + 1) + 1))) by lia.
        reflexivity.
    + replace (Z.to_nat (k - (a + 1) + 1)) with 0%nat in Hlen by lia.
      cbn [Nat.min] in Hlen.
      destruct (List.filter _ rows) as [|x kept]; [|discriminate].
      split; [exists (r :: rows); reflexivity|].
      split; [reflexivity|].
      replace (Z.to_nat (k - a + 1)) with 0%nat by lia. reflexivity.
Qed.

(** X3: verifyChain accepts every prefix of a chain it accepts: after the
    rows numbered above k are deleted it still reports valid = true, with
    totalEntries = the rows left, so cutting off the newest entries goes
    unnoticed. *)
Theorem verifyChain_accepts_truncation (cs : list call) (k : Z) :
  List.NoDup (List.map c_uuid cs) ->
  verifyChain (delete_after k (run (constructor []) cs))
  = {| valid := true; brokenAt := None;
       totalEntries := Nat.min (Z.to_nat k) (List.length cs) |}.
Proof.
  intros Hnd.
  destruct (run_grown cs (constructor []) 0 grown_fresh Hnd) as [Hg _].
  cbn [Nat.add] in Hg. destruct Hg as [Hs _ Hch].
  destruct (filter_numbered_prefix k _ 1 _ Hs) as ((rest & Hrest) & Hk & Hlen).
  rewrite verifyChain_loop. unfold delete_after. cbn [db].
  set (kept := List.filter _ _) in *.
  rewrite Hrest in Hch. destruct (chain_prefix _ _ _ _ Hch) as [h1 Hc1].
  rewrite select_all_asc_sorted by (rewrite Hk; apply count_up_sorted).
  rewrite (verify_rows_chain _ _ _ _ Hc1), Hlen.
  now replace (k - 1 + 1) with k by lia.
Qed.

Lemma verifyChain_accepts_truncation_witness :
  verifyChain (delete_after 1 AuditScenario.ledger)
  = {| valid := true; brokenAt := None; totalEntries := 1 |}.
Proof.
  apply (verifyChain_accepts_truncation
           [AuditScenario.c1; AuditScenario.c2; AuditScenario.c3] 1).
  cbn. repeat constructor; cbn; intuition discriminate.
Defined.

Lemma insert_by_map {A} (key : A -> Z) (g : A -> A) x l :
  (forall y, key (g y) = key y) ->
  insert_by key (g x) (List.map g l) = List.map g (insert_by key x l).
Proof.
  intros Hg. induction l as [|y l IH]; [reflexivity|].
  cbn [List.map insert_by]. rewrite !Hg.
  destruct (key x <=? key y); [reflexivity|]. cbn [List.map]. now rewrite IH.
Qed.

Lemma stable_sort_map {A} (key : A -> Z) (g : A -> A) l :
  (forall y, key (g y) = key y) ->
  stable_sort key (List.map g l) = List.map g (stable_sort key l).
Proof.
  intros Hg. induction l as [|x l IH]; [reflexivity|].
  cbn [List.map stable_sort fold_right]. fold (stable_sort key (List.map g l)).
  fold (stable_sort key l). rewrite IH. now apply insert_by_map.
Qed.

Lemma verify_rows_map total g rows : forall prev,
  (forall r, Row.sequence_number (g r) = Row.sequence_number r
             /\ Row.previous_hash (g r) = Row.previous_hash r
             /\ Row.hash (g r) = Row.hash r
             /\ row_payload (g r) = row_payload r) ->
  verify_rows total prev (List.map g rows) = verify_rows total prev rows.
Proof.
  intros prev Hg. revert prev. induction rows as [|r rows IH]; intros prev; [reflexivity|].
  cbn [List.map verify_rows]. destruct (Hg r) as (-> & -> & -> & ->).
  now rewrite IH.
Qed.

(** X4: verifyChain never reads the id column: overwriting the id of any
    row leaves its verdict unchanged on every ledger. *)
Theorem verifyChain_ignores_id (st : AuditTrail) (k : Z) (v : string) :
  verifyChain {| db := db_update k (set_id v) (db st);
                 sequenceCounter := sequenceCounter st; lastHash := lastHash st |}
  = verifyChain st.
Proof.
  rewrite !verifyChain_loop. cbn [db]. unfold db_update, select_all_asc.
  set (g := fun r : Row.t => if Row.sequence_number r =? k then set_id v r else r).
  assert (Hg : forall r, Row.sequence_number (g r) = Row.sequence_number r
                         /\ Row.previous_hash (g r) = Row.previous_hash r
                         /\ Row.hash (g r) = Row.hash r
                         /\ row_payload (g r) = row_payload r).
  { intros r. unfold g. destruct (Row.sequence_number r =? k); auto. }
  rewrite (stable_sort_map _ g) by (intros y; apply Hg).
  rewrite List.length_map. now apply verify_rows_map.
Qed.
(* -- reading entries back -------------------------------------------------- *)

Lemma record_all_run cs : forall st, fst (record_all st cs) = run st cs.
Proof.
  induction cs as [|c cs IH]; intros st; [reflexivity|].
  cbn [record_all]. specialize (IH (fst (record st c))).
  destruct (record_all (fst (record st c)) cs) as [st' made]. cbn [fst] in IH.
  now destruct (snd (record st c)).
Qed.

(* Every call with a uuid of its own yields an entry, and the table is the
   entries as rows. *)
Lemma record_all_rows cs : forall st n,
  grown st n -> List.NoDup (ids (db st) ++ List.map c_uuid cs) ->
  db (run st cs) = db st ++ List.map row_of (snd (record_all st cs))
  /\ List.length (snd (record_all st cs)) = List.length cs
  /\ (forall e, In e (snd (record_all st cs)) ->
        exists c, In c cs /\ details e = c_details c).
Proof.
  induction cs as [|c cs IH]; intros st n Hg Hnd.
  - cbn. rewrite app_nil_r. repeat split. intros e [].
  - cbn [List.map] in Hnd.
    assert (Hfresh : ~ In (c_uuid c) (ids (db st))).
    { intros Hin. apply List.NoDup_remove_2 in Hnd. apply Hnd, in_or_app. now left. }
    destruct (record_grown st n c Hg Hfresh) as [Hrec Hg'].
    assert (Hids : ids (db (fst (record st c))) = ids (db st) ++ [c_uuid c]).
    { rewrite Hrec. cbn [fst db]. unfold ids. now rewrite List.map_app. }
    destruct (IH (fst (record st c)) (S n) Hg') as (Hdb & Hlen & Hdet).
    { rewrite Hids, <- app_assoc. exact Hnd. }
    change (run st (c :: cs)) with (run (fst (record st c)) cs).
    cbn [record_all].
    destruct (record_all (fst (record st c)) cs) as [st' made]. cbn [snd] in *.
    rewrite Hrec in *. cbn [fst snd db] in *.
    repeat split.
    + rewrite Hdb, <- app_assoc. reflexivity.
    + cbn [List.length]. now rewrite Hlen.
    + intros e [<- | He].
      * exists c. split; [now left | reflexivity].
      * destruct (Hdet e He) as (c0 & Hc0 & E). exists c0. split; [now right | exact E].
Qed.

Lemma map_throwing_all {A B} (f : A -> option B) (g : B -> A) l :
  (forall y, In y l -> f (g y) = Some y) ->
  map_throwing f (List.map g l) = Some l.
Proof.
  induction l as [|y l IH]; intros H; [reflexivity|].
  cbn [List.map map_throwing]. rewrite (H y (or_introl eq_refl)).
  rewrite IH; [reflexivity|]. intros z Hz. apply H. now right.
Qed.

Lemma sorted_filter (p : Row.t -> bool) rows :
  StronglySorted (key_le Row.sequence_number) rows ->
  StronglySorted (key_le Row.sequence_number) (List.filter p rows).
Proof.
  induction 1 as [|r rows Hs IH Hr]; cbn [List.filter]; [constructor|].
  destruct (p r); [|exact IH]. constructor; [exact IH|].
  apply List.Forall_forall. intros x Hx. apply List.filter_In in Hx as [Hx _].
  rewrite List.Forall_forall in Hr. now apply Hr.
Qed.

Section ReadBack.
Variable JSON_parse : string -> option Json.object.

(* rowToEntry undoes row_of wherever JSON.parse undoes JSON.stringify *)
Lemma rowToEntry_row_of e :
  JSON_parse (Json.stringify (Json.JObj (details e))) = Some (details e) ->
  rowToEntry JSON_parse (row_of e) = Some e.
Proof.
  intros H. unfold rowToEntry. cbn [row_of Row.details]. rewrite H.
  now destruct e.
Qed.

(** X5: on a ledger that started empty, with JSON.parse reading back the
    details the calls serialised, getRecent(limit) returns the newest limit
    entries that record returned (all of them when there are fewer, or when
    the limit is negative), oldest first; getByActor(actor, limit) returns
    the newest limit entries of that actor, newest first. *)
Theorem getRecent_getByActor (cs : list call) :
  List.NoDup (List.map c_uuid cs) ->
  (forall c, In c cs ->
     JSON_parse (Json.stringify (Json.JObj (c_details c))) = Some (c_details c)) ->
  let st := run (constructor []) cs in
  let made := snd (record_all (constructor []) cs) in
  List.length made = List.length cs
  /\ (forall limit, 0 <= limit ->
        getRecent JSON_parse st limit
        = Some (skipn (List.length made - Z.to_nat limit) made))
  /\ (forall limit, limit < 0 -> getRecent JSON_parse st limit = Some made)
  /\ (forall who limit,
        getByActor JSON_parse st who limit
        = Some (sql_limit limit
                  (rev (List.filter (fun e => String.eqb (actor e) who) made)))).
Proof.
  intros Hnd Hparse st made.
  destruct (run_grown cs (constructor []) 0 grown_fresh Hnd) as [Hg _].
  fold st in Hg. cbn [Nat.add] in Hg.
  destruct (record_all_rows cs (constructor []) 0 grown_fresh Hnd) as (Hdb & Hlen & Hdet).
  fold st made in Hdb, Hlen, Hdet.
  change (db (constructor [])) with (@nil Row.t) in Hdb. cbn [app] in Hdb.
  assert (Hback : forall e, In e made -> rowToEntry JSON_parse (row_of e) = Some e).
  { intros e He. apply rowToEntry_row_of. destruct (Hdet e He) as (c & Hc & ->).
    now apply Hparse. }
  assert (Hsorted : StronglySorted (key_le Row.sequence_number) (db st)).
  { apply sorted_by_seqs. rewrite (grown_seqs _ _ Hg). apply count_up_sorted. }
  assert (Hdesc : select_all_desc (db st) = List.map row_of (rev made)).
  { unfold select_all_desc, select_all_asc. rewrite stable_sort_sorted by exact Hsorted.
    now rewrite Hdb, List.map_rev. }
  split; [exact Hlen|]. split; [|split].
  - intros limit Hl. unfold getRecent, sql_limit. rewrite Hdesc.
    destruct (Z.ltb_spec limit 0); [lia|].
    rewrite List.firstn_map, map_throwing_all.
    + cbn [option_map]. rewrite List.firstn_rev, rev_involutive. reflexivity.
    + intros e He. apply Hback. apply A2AProofs.firstn_in, List.in_rev in He. exact He.
  - intros limit Hl. unfold getRecent, sql_limit. rewrite Hdesc.
    destruct (Z.ltb_spec limit 0); [|lia].
    rewrite map_throwing_all.
    + cbn [option_map]. now rewrite rev_involutive.
    + intros e He. apply Hback. now apply List.in_rev.
  - intros who limit. unfold getByActor, select_all_desc, select_all_asc.
    rewrite stable_sort_sorted by (apply sorted_filter; exact Hsorted).
    rewrite Hdb.
    assert (Hf : List.filter (fun r => String.eqb (Row.actor r) who) (List.map row_of made)
                 = List.map row_of
                     (List.filter (fun e => String.eqb (actor e) who) made)).
    { clear. induction made as [|e l IH]; [reflexivity|].
      cbn [List.map List.filter row_of Row.actor].
      destruct (String.eqb (actor e) who); cbn [List.map]; now rewrite IH. }
    rewrite Hf, <- List.map_rev.
    assert (Hlim : forall l : list AuditEntry,
               sql_limit limit (List.map row_of l) = List.map row_of (sql_limit limit l)).
    { intros l. unfold sql_limit. destruct (limit <? 0); [reflexivity|].
      apply List.firstn_map. }
    rewrite Hlim. apply map_throwing_all.
    intros e He. apply Hback.
    assert (He' : In e (rev (List.filter (fun e => String.eqb (actor e) who) made))).
    { unfold sql_limit in He. destruct (limit <? 0); [exact He | now apply A2AProofs.firstn_in in He]. }
    apply List.in_rev, List.filter_In in He'. tauto.
Qed.
End ReadBack.
(* a JSON.parse that reads the empty object literal and throws on the rest *)
Definition parse_empty_object (s : string) : option Json.object :=
  if String.eqb s "{}" then Some [] else None.

Lemma getRecent_getByActor_witness :
  getRecent parse_empty_object
    (run (constructor []) [AuditScenario.c1; AuditScenario.c2]) 1
  = Some (skipn 1 (snd (record_all (constructor [])
                          [AuditScenario.c1; AuditScenario.c2]))).
Proof.
  destruct (getRecent_getByActor parse_empty_object
              [AuditScenario.c1; AuditScenario.c2]) as (_ & H & _).
  - cbn. repeat constructor; cbn; intuition discriminate.
  - intros c [<- | [<- | []]]; reflexivity.
  - apply (H 1). lia.
Defined.
Lemma filter_drop_row k rows :
  ~ In k (seqs rows) ->
  List.filter (fun r => negb (Row.sequence_number r =? k)) rows = rows.
Proof.
  induction rows as [|x rows IH]; [reflexivity|]. cbn [seqs List.map List.filter In].
  intros H. destruct (Z.eqb_spec (Row.sequence_number x) k) as [E|_]; [tauto|].
  cbn [negb]. f_equal. apply IH. unfold seqs. tauto.
Qed.

Lemma sorted_remove (l1 l2 : list Z) (x : Z) :
  StronglySorted Z.le (l1 ++ x :: l2) -> StronglySorted Z.le (l1 ++ l2).
Proof.
  induction l1 as [|y l1 IH]; cbn [app]; intros H.
  - now apply StronglySorted_inv in H.
  - apply StronglySorted_inv in H as [Hs Hy]. constructor; [now apply IH|].
    apply List.Forall_app in Hy as [Hy1 Hy2]. apply List.Forall_app.
    split; [exact Hy1 | now apply List.Forall_inv_tail in Hy2].
Qed.

Lemma numbered_neighbours rows : forall a m r r',
  seqs rows = count_up a m -> In r rows -> In r' rows ->
  Row.sequence_number r' = Row.sequence_number r + 1 ->
  exists l1 l2, rows = l1 ++ r :: r' :: l2.
Proof.
  induction rows as [|x rows IH]; intros a m r r' Hs Hr Hr' Hn; [destruct Hr|].
  destruct m as [|m]; [discriminate|]. unfold seqs in Hs. cbn [List.map count_up] in Hs.
  injection Hs as Hx Hs.
  assert (Hb : forall y, In y rows -> a + 1 <= Row.sequence_number y).
  { intros y Hy. apply (in_map Row.sequence_number) in Hy. unfold seqs in Hs.
    rewrite Hs in Hy. apply count_up_bounds in Hy. lia. }
  destruct Hr as [<- | Hr].
  - destruct Hr' as [<- | Hr']; [lia|].
    destruct rows as [|y rows]; [destruct Hr'|].
    destruct m as [|m]; [discriminate|]. cbn [List.map count_up] in Hs.
    injection Hs as Hy Hs.
    destruct Hr' as [<- | Hr'].
    + now exists [], rows.
    + exfalso. apply (in_map Row.sequence_number) in Hr'. rewrite Hs in Hr'.
      apply count_up_bounds in Hr'. lia.
  - destruct Hr' as [<- | Hr'].
    + specialize (Hb r Hr). lia.
    + destruct (IH (a + 1) m r r' Hs Hr Hr' Hn) as (l1 & l2 & ->).
      now exists (x :: l1), l2.
Qed.

(** X24: deleting a row that is not the newest one is reported at the row
    that followed it: verifyChain then returns valid = false with brokenAt =
    the deleted number + 1 and totalEntries one less, provided the deleted
    row's hash differs from its own previous_hash. *)
Theorem verifyChain_reports_deleted_row (cs : list call) (r r' : Row.t) :
  List.NoDup (List.map c_uuid cs) ->
  let st := run (constructor []) cs in
  In r (db st) -> In r' (db st) ->
  Row.sequence_number r' = Row.sequence_number r + 1 ->
  Row.hash r <> Row.previous_hash r ->
  verifyChain (delete_row (Row.sequence_number r) st)
  = {| valid := false; brokenAt := Some (Row.sequence_number r + 1);
       totalEntries := List.length cs - 1 |}.
Proof.
  intros Hnd st Hr Hr' Hn Hneq.
  destruct (run_grown cs (constructor []) 0 grown_fresh Hnd) as [Hg _].
  fold st in Hg. cbn [Nat.add] in Hg.
  pose proof (grown_length _ _ Hg) as Hlen. destruct Hg as [Hs _ Hch].
  destruct (numbered_neighbours _ _ _ r r' Hs Hr Hr' Hn) as (l1 & l2 & E).
  assert (Hnd' : List.NoDup (seqs (l1 ++ r :: r' :: l2))).
  { rewrite <- E, Hs. apply count_up_NoDup. }
  assert (Hdel : List.filter (fun x => negb (Row.sequence_number x =? Row.sequence_number r))
                   (db st) = l1 ++ r' :: l2).
  { rewrite E. change (l1 ++ r :: r' :: l2) with (l1 ++ [r] ++ r' :: l2).
    rewrite !List.filter_app.
    assert (Hone : List.filter
                     (fun x => negb (Row.sequence_number x =? Row.sequence_number r)) [r]
                   = []).
    { cbn [List.filter]. now rewrite Z.eqb_refl. }
    rewrite Hone. cbn [app].
    unfold seqs in Hnd'. rewrite List.map_app in Hnd'. cbn [List.map] in Hnd'.
    pose proof (List.NoDup_remove_2 _ _ _ Hnd') as Hnot.
    rewrite (filter_drop_row _ l1), (filter_drop_row _ (r' :: l2)); [reflexivity | |].
    - intros H. apply Hnot, in_or_app. now right.
    - intros H. apply Hnot, in_or_app. now left. }
  rewrite verifyChain_loop. unfold delete_row. cbn [db]. rewrite Hdel.
  assert (Hsorted : StronglySorted Z.le (seqs (l1 ++ r' :: l2))).
  { pose proof (count_up_sorted 1 (List.length cs)) as Hso. rewrite <- Hs, E in Hso.
    unfold seqs in *. rewrite List.map_app in *. cbn [List.map] in *.
    now apply sorted_remove in Hso. }
  rewrite select_all_asc_sorted by exact Hsorted.
  rewrite E in Hch. destruct (chain_split _ _ _ _ _ Hch) as (h1 & Hc1 & Hp & _).
  assert (Hch2 : exists h2, chain genesis ((l1 ++ [r]) ++ r' :: l2) = Some h2).
  { rewrite <- app_assoc. cbn [app]. eauto. }
  destruct Hch2 as [h2 Hch2].
  destruct (chain_split _ _ _ _ _ Hch2) as (h1' & Hc1' & Hp' & _).
  rewrite (chain_app _ _ _ _ Hc1) in Hc1'. cbn [chain] in Hc1'.
  destruct (String.eqb (Row.previous_hash r) h1 && _) eqn:Eb; [|discriminate].
  injection Hc1' as <-.
  rewrite (verify_rows_app _ _ _ _ _ Hc1). cbn [verify_rows].
  destruct (String.eqb_spec (Row.previous_hash r') h1) as [Eq | _].
  - exfalso. apply Hneq. congruence.
  - cbn [negb]. rewrite Hn. f_equal.
    rewrite List.length_app. cbn [List.length].
    rewrite <- Hlen, E, List.length_app. cbn [List.length]. lia.
Qed.

Lemma verifyChain_reports_deleted_row_witness :
  verifyChain (delete_row 1 AuditScenario.ledger)
  = {| valid := false; brokenAt := Some 2; totalEntries := 2 |}.
Proof.
  apply (verifyChain_reports_deleted_row
           [AuditScenario.c1; AuditScenario.c2; AuditScenario.c3]
           (row_of (entry_of (constructor []) AuditScenario.c1))
           (row_of (entry_of (run (constructor []) [AuditScenario.c1]) AuditScenario.c2))).
  - cbn. repeat constructor; cbn; intuition discriminate.
  - vm_compute. left. reflexivity.
  - vm_compute. right. left. reflexivity.
  - reflexivity.
  - apply String.eqb_neq. vm_compute. reflexivity.
Defined.
End AuditQueriesProofs.

(* --------------------------------------------------------------------- *)
(*  Bounded autonomy: the log bound, approval flags, overrides            *)
(* --------------------------------------------------------------------- *)

Module AutonomyQueriesProofs.
Import BoundedAutonomy AutonomyQueries BoundedAutonomyProofs.

Lemma recordDecision_log e now t d why :
  let entry := {| timestamp := now; tool := name t; decision := d; reason := why |} in
  (exists older, auditLog (recordDecision e now t d why) = older ++ [entry])
  /\ Z.of_nat (List.length (auditLog (recordDecision e now t d why))) <= 10000
  /\ (Z.of_nat (List.length (auditLog e)) < 10000 ->
      auditLog (recordDecision e now t d why) = auditLog e ++ [entry])
  /\ (10000 <= Z.of_nat (List.length (auditLog e)) ->
      Z.of_nat (List.length (auditLog (recordDecision e now t d why))) = 5000).
Proof.
  intros entry. cbn [recordDecision auditLog]. fold entry.
  pose proof (List.length_app (auditLog e) [entry]) as Hlen. cbn [List.length] in Hlen.
  destruct (Z.ltb_spec 10000 (Z.of_nat (List.length (auditLog e ++ [entry])))) as [Hbig | Hok].
  - split; [apply A2AProofs.slice_last_snoc; lia|].
    unfold Js.slice_last. rewrite List.length_skipn.
    split; [lia|]. split; intros; lia.
  - split; [now exists (auditLog e)|].
    split; [lia|]. split; [reflexivity | intros; lia].
Qed.

(** X6: the decision log never grows past 10000 entries, whatever is done to
    the engine; a recorded decision is always the last entry, it is simply
    appended while fewer than 10000 are held, and on overflow exactly the
    newest 5000 are kept. *)
Theorem auditLog_bounded (ops : list op) (now : Z) (t : ToolDefinition)
    (d : AuthorityLevel) (why : string) :
  let e := reach ops in
  let entry := {| timestamp := now; tool := name t; decision := d; reason := why |} in
  Z.of_nat (List.length (auditLog e)) <= 10000
  /\ (exists older, auditLog (recordDecision e now t d why) = older ++ [entry])
  /\ (Z.of_nat (List.length (auditLog e)) < 10000 ->
      auditLog (recordDecision e now t d why) = auditLog e ++ [entry])
  /\ (Z.of_nat (List.length (auditLog e)) = 10000 ->
      auditLog (recordDecision e now t d why)
      = skipn (Z.to_nat 5001) (auditLog e) ++ [entry]).
Proof.
  intros e entry.
  assert (Hinv : forall ops0 e0, Z.of_nat (List.length (auditLog e0)) <= 10000 ->
                   Z.of_nat (List.length (auditLog (fold_left step ops0 e0))) <= 10000).
  { induction ops0 as [|o ops0 IH]; intros e0 H0; [exact H0|].
    cbn [fold_left]. apply IH. destruct o; cbn [step]; try exact H0.
    - apply recordDecision_log.
    - unfold validateValueThreshold. destruct (threshold_truthy _); [|exact H0].
      destruct (_ <? _); [|exact H0]. cbn [fst]. apply recordDecision_log. }
  assert (Hb : Z.of_nat (List.length (auditLog e)) <= 10000).
  { apply Hinv. cbn. lia. }
  destruct (recordDecision_log e now t d why) as (Hlast & _ & Happ & _).
  split; [exact Hb|]. split; [exact Hlast|]. split; [exact Happ|].
  intros Hfull. cbn [recordDecision auditLog]. fold entry.
  rewrite List.length_app. cbn [List.length].
  destruct (Z.ltb_spec 10000 (Z.of_nat (List.length (auditLog e) + 1))); [|lia].
  unfold Js.slice_last. rewrite List.length_app. cbn [List.length].
  replace (Z.to_nat (Z.of_nat (List.length (auditLog e) + 1) - 5000))
    with (Z.to_nat 5001) by lia.
  rewrite List.skipn_app.
  replace (Z.to_nat 5001 - List.length (auditLog e))%nat with 0%nat by lia.
  reflexivity.
Qed.

Lemma auditLog_bounded_witness :
  auditLog (recordDecision constructor 7 wire_transfer require_human "manual")
  = [ {| timestamp := 7; tool := "wire_transfer"; decision := require_human;
         reason := "manual" |} ].
Proof.
  destruct (auditLog_bounded [] 7 wire_transfer require_human "manual")
    as (_ & _ & H & _).
  apply H. cbn. lia.
Defined.

(** X7: a tool that declares requiresApproval can be auto-executed only
    through an override: with no override under its name, whatever policies
    are installed, getAuthority is require_approval or require_human,
    canAutoExecute is false and requiresAudit is true; the policies are not
    consulted for it at all. *)
Theorem requiresApproval_needs_override (e : Engine) (t : ToolDefinition) :
  overrides e !! name t = None ->
  requiresApproval t = true ->
  (getAuthority e t = require_approval \/ getAuthority e t = require_human)
  /\ canAutoExecute e t = false
  /\ requiresAudit e t = true
  /\ forall ps, getAuthority (setPolicies e ps) t = getAuthority e t.
Proof.
  intros Ho Ha. unfold canAutoExecute, requiresAudit, getAuthority.
  cbn [setPolicies overrides]. rewrite Ho, Ha.
  destruct (RiskLevel_eqb (riskLevel t) critical); auto.
Qed.

Lemma requiresApproval_needs_override_witness :
  canAutoExecute (setPolicies constructor
                    [Policy.mk critical auto_approve None false]) wire_transfer
  = false.
Proof.
  refine (proj1 (proj2 (requiresApproval_needs_override _ wire_transfer _ _)));
    reflexivity.
Defined.

(** X8: setOverride followed by removeOverride of the same name gives back
    the engine it started from when no override was stored under that name,
    and in any case an authority as if the override had only been removed. *)
Theorem override_set_then_removed (e : Engine) (n : string) (a : AuthorityLevel) :
  (forall t, getAuthority (removeOverride (setOverride e n a) n) t
             = getAuthority (removeOverride e n) t)
  /\ (overrides e !! n = None -> removeOverride (setOverride e n a) n = e).
Proof.
  split.
  - intros t. unfold getAuthority, find_policy.
    cbn [removeOverride setOverride overrides policies].
    now rewrite delete_insert_eq.
  - intros Ho. unfold removeOverride, setOverride. cbn [overrides policies auditLog].
    rewrite delete_insert_id by exact Ho. now destruct e.
Qed.

Lemma override_set_then_removed_witness :
  removeOverride (setOverride constructor "wire_transfer" auto_approve) "wire_transfer"
  = constructor.
Proof.
  apply (proj2 (override_set_then_removed constructor "wire_transfer" auto_approve)).
  reflexivity.
Defined.

Lemma find_policy_none e t :
  (forall p, In p (policies e) -> Policy.riskLevel p <> riskLevel t) ->
  find_policy e t = None.
Proof.
  unfold find_policy. induction (policies e) as [|p ps IH]; intros H; [reflexivity|].
  cbn [List.find].
  destruct (RiskLevel_eqb (Policy.riskLevel p) (riskLevel t)) eqn:E.
  - exfalso. apply (H p (or_introl eq_refl)).
    destruct (Policy.riskLevel p), (riskLevel t); (reflexivity || discriminate).
  - apply IH. intros q Hq. apply H. now right.
Qed.

(** X9: a risk level without a policy fails closed: for a tool that does not
    declare requiresApproval, with no override and no policy for its risk
    level, getAuthority is require_approval, canAutoExecute is false and
    requiresAudit is true; no estimated value changes that or adds to the
    decision log. *)
Theorem missing_policy_fails_closed (e : Engine) (t : ToolDefinition) :
  overrides e !! name t = None ->
  requiresApproval t = false ->
  (forall p, In p (policies e) -> Policy.riskLevel p <> riskLevel t) ->
  getAuthority e t = require_approval
  /\ canAutoExecute e t = false
  /\ requiresAudit e t = true
  /\ forall now v, validateValueThreshold e now t v = (e, require_approval).
Proof.
  intros Ho Hr Hp. apply find_policy_none in Hp.
  assert (Ha : getAuthority e t = require_approval).
  { unfold getAuthority. now rewrite Ho, Hr, Hp. }
  split; [exact Ha|]. split; [unfold canAutoExecute; now rewrite Ha|].
  split; [unfold requiresAudit; now rewrite Hr, Hp|].
  intros now v. unfold validateValueThreshold. now rewrite Hp, Ha.
Qed.

Lemma missing_policy_fails_closed_witness :
  getAuthority (setPolicies constructor []) transfer = require_approval
  /\ canAutoExecute (setPolicies constructor []) transfer = false.
Proof.
  destruct (missing_policy_fails_closed (setPolicies constructor []) transfer)
    as (H1 & H2 & _).
  - reflexivity.
  - reflexivity.
  - intros p [].
  - exact (conj H1 H2).
Defined.

(** X10: validateValueThreshold never lowers an authority and never touches
    policies or overrides: it returns the base authority with the engine
    unchanged, or the escalated one with one decision recorded; the result is
    at least as strict as getAuthority, and an escalated result is never
    auto_approve or log_only. *)
Theorem validateValueThreshold_never_lowers (e : Engine) (now : Z)
    (t : ToolDefinition) (v : Z) :
  let out := validateValueThreshold e now t v in
  let base := getAuthority e t in
  (out = (e, base)
   \/ exists why, out = (recordDecision e now t (escalate base) why, escalate base))
  /\ strictness base <= strictness (snd out)
  /\ policies (fst out) = policies e
  /\ overrides (fst out) = overrides e
  /\ getAuthority (fst out) t = base
  /\ (snd out <> base -> 2 <= strictness (snd out)).
Proof.
  intros out base. unfold out, validateValueThreshold. fold base.
  destruct (threshold_truthy (find_policy e t)) as [limit|];
    [destruct (limit <? v)|]; cbn [fst snd].
  - split; [right; eauto|].
    repeat split; try reflexivity; destruct base; cbn; (lia || congruence || idtac).
  - split; [now left|]. repeat split; try reflexivity; try lia. congruence.
  - split; [now left|]. repeat split; try reflexivity; try lia. congruence.
Qed.

Lemma validateValueThreshold_never_lowers_witness :
  snd (validateValueThreshold (with_high_threshold 100) 0 transfer 500) = require_human
  /\ 2 <= strictness (snd (validateValueThreshold (with_high_threshold 100) 0 transfer 500))
  /\ getAuthority (fst (validateValueThreshold (with_high_threshold 100) 0 transfer 500))
                  transfer
     = require_approval.
Proof.
  pose proof (validateValueThreshold_never_lowers (with_high_threshold 100) 0 transfer 500)
    as H.
  cbv zeta in H. destruct H as (_ & _ & _ & _ & Hbase & Hup).
  split; [reflexivity|]. split; [|exact Hbase].
  apply Hup. intros E. vm_compute in E. discriminate.
Defined.

(** X11: getAuditLog(limit) with limit > 0 returns the newest limit decisions
    in log order (all of them when fewer are held), but getAuditLog(0)
    returns the whole log, since slice(-0) is slice(0). *)
Theorem getAuditLog_suffix (e : Engine) (limit : Z) :
  (0 < limit ->
   getAuditLog e limit
   = skipn (List.length (auditLog e) - Z.to_nat limit) (auditLog e)
   /\ List.length (getAuditLog e limit)
      = Nat.min (Z.to_nat limit) (List.length (auditLog e)))
  /\ getAuditLog e 0 = auditLog e.
Proof.
  split; [|reflexivity].
  intros Hl. unfold getAuditLog, slice_from.
  destruct (Z.ltb_spec (- limit) 0); [|lia].
  replace (Z.to_nat (Z.of_nat (List.length (auditLog e)) + - limit))
    with (List.length (auditLog e) - Z.to_nat limit)%nat by lia.
  split; [reflexivity|]. rewrite List.length_skipn. lia.
Qed.

Lemma getAuditLog_suffix_witness :
  let e := recordDecision (recordDecision constructor 1 transfer log_only "first")
                          2 transfer require_human "second" in
  List.map reason (getAuditLog e 1) = ["second"%string]
  /\ List.map reason (getAuditLog e 0) = ["first"%string; "second"%string].
Proof.
  cbv zeta.
  destruct (getAuditLog_suffix
              (recordDecision (recordDecision constructor 1 transfer log_only "first")
                              2 transfer require_human "second") 1) as [H1 H0].
  destruct (H1 ltac:(lia)) as [E _]. rewrite E, H0. split; reflexivity.
Defined.
(** X25: with the default policies and no override for the tool, the
    authority is read off the risk level, critical giving require_human,
    high require_approval, medium log_only and low auto_approve, except that
    requiresApproval raises low, medium and high to require_approval; only
    low and medium tools without the flag auto-execute, and only low ones
    without the flag go unaudited. *)
Theorem default_policy_table (e : Engine) (t : ToolDefinition) :
  policies e = policies constructor ->
  overrides e !! name t = None ->
  getAuthority e t
  = match riskLevel t, requiresApproval t with
    | critical, _ => require_human
    | high, _ => require_approval
    | _, true => require_approval
    | medium, false => log_only
    | low, false => auto_approve
    end
  /\ canAutoExecute e t
     = negb (requiresApproval t)
       && (RiskLevel_eqb (riskLevel t) low || RiskLevel_eqb (riskLevel t) medium)
  /\ requiresAudit e t = requiresApproval t || negb (RiskLevel_eqb (riskLevel t) low).
Proof.
  intros Hp Ho. unfold canAutoExecute, requiresAudit, getAuthority, find_policy.
  rewrite Hp, Ho. destruct t as [n approval risk]. cbn [requiresApproval riskLevel].
  destruct approval, risk; repeat split; reflexivity.
Qed.

Lemma default_policy_table_witness :
  getAuthority (recordDecision constructor 1 transfer log_only "seen") transfer
  = require_approval
  /\ canAutoExecute (recordDecision constructor 1 transfer log_only "seen") transfer
     = false.
Proof.
  destruct (default_policy_table (recordDecision constructor 1 transfer log_only "seen")
              transfer eq_refl eq_refl) as (H1 & H2 & _).
  exact (conj H1 H2).
Defined.
End AutonomyQueriesProofs.

(* --------------------------------------------------------------------- *)
(*  A2A message bus: mailboxes, delivery order, acknowledgement           *)
(* --------------------------------------------------------------------- *)

Module A2AMoreProofs.
Import A2A A2AProofs.

(* this.queues.get(agentId) || [] *)
Definition mailbox (a : string) (st : A2AProtocol) : list A2AMessage :=
  match map_get a (queues st) with Some q => q | None => [] end.

Lemma receive_mailbox st a limit now :
  receive st a limit now
  = Js.slice0 limit
      (List.filter (fun m => now - timestamp m <? ttl m)
         (List.filter (fun m => negb (set_has (id m) (acknowledged st))) (mailbox a st))).
Proof. reflexivity. Qed.

Lemma map_get_map_set_ne {V} a k (v : V) qs :
  a <> k -> map_get a (map_set k v qs) = map_get a qs.
Proof.
  intros Hne. induction qs as [|[k' q] qs IH]; cbn [map_set map_get].
  - destruct (String.eqb_spec k a); [congruence | reflexivity].
  - destruct (String.eqb_spec k' k) as [-> | Hk]; cbn [map_get].
    + destruct (String.eqb_spec k a); [congruence | reflexivity].
    + destruct (String.eqb k' a); [reflexivity | exact IH].
Qed.

Lemma map_get_push_to_ne a k m qs :
  a <> k -> map_get a (push_to k m qs) = map_get a qs.
Proof. intros H. unfold push_to. destruct (map_get k qs); now apply map_get_map_set_ne. Qed.

Lemma sublist_filter {A} (p : A -> bool) (l : list A) : sublist (List.filter p l) l.
Proof.
  induction l as [|x l IH]; cbn [List.filter]; [constructor|].
  destruct (p x); now constructor.
Qed.

Lemma sublist_firstn {A} n (l : list A) : sublist (firstn n l) l.
Proof.
  revert l. induction n as [|n IH]; intros [|x l]; cbn [firstn]; try constructor.
  - apply sublist_nil_l.
  - apply IH.
Qed.

(** X12: send appends the message at the tail of the recipient's mailbox and
    leaves every other mailbox, and what receive returns from it, as they
    were; receive always returns messages in mailbox order (a sublist of the
    mailbox), so delivery to one agent is first-in first-out. *)
Theorem send_appends_receive_in_order (st : A2AProtocol) (uuid from to : string)
    (now ttl_ : Z) (body : Json.object) :
  let st' := fst (send st uuid now from to body ttl_) in
  let m := snd (send st uuid now from to body ttl_) in
  mailbox to st' = mailbox to st ++ [m]
  /\ (forall a, a <> to ->
        mailbox a st' = mailbox a st
        /\ forall limit t, receive st' a limit t = receive st a limit t)
  /\ (forall s a limit t, sublist (receive s a limit t) (mailbox a s)).
Proof.
  intros st' m. split; [|split].
  - unfold mailbox, st'. cbn [send fst queues]. rewrite map_get_push_to.
    now destruct (map_get to (queues st)).
  - intros a Ha.
    assert (E : mailbox a st' = mailbox a st).
    { unfold mailbox, st'. cbn [send fst queues]. now rewrite map_get_push_to_ne. }
    split; [exact E|]. intros limit t. rewrite !receive_mailbox, E. reflexivity.
  - intros s a limit t. rewrite receive_mailbox.
    etransitivity; [|apply sublist_filter].
    etransitivity; [|apply sublist_filter].
    unfold Js.slice0. destruct (0 <=? limit); apply sublist_firstn.
Qed.

Lemma send_appends_receive_in_order_witness :
  let st := fst (send constructor "m1" 0 "hippocrates" "atlas" [] 300000) in
  mailbox "atlas" (fst (send st "m2" 1 "apollo" "atlas" [] 300000))
  = mailbox "atlas" st ++ [snd (send st "m2" 1 "apollo" "atlas" [] 300000)]
  /\ mailbox "hermes" (fst (send st "m2" 1 "apollo" "atlas" [] 300000))
     = mailbox "hermes" st.
Proof.
  intros st.
  pose proof (send_appends_receive_in_order st "m2" "apollo" "atlas" 1 300000 []) as H.
  cbv zeta in H. destruct H as (Hto & Hother & _).
  split; [exact Hto|]. apply (Hother "hermes"). discriminate.
Defined.

Lemma acknowledge_all_acked ms : forall st x,
  set_has x (acknowledged st) = true \/ In x (List.map id ms) ->
  set_has x (acknowledged (fold_left (fun s m => acknowledge s (id m)) ms st)) = true.
Proof.
  induction ms as [|m ms IH]; intros st x H; cbn [fold_left].
  - destruct H as [H | []]. exact H.
  - apply IH. cbn [List.map] in H. cbn [acknowledge acknowledged]. unfold set_add.
    destruct (set_has (id m) (acknowledged st)) eqn:E.
    + destruct H as [H | [<- | H]]; auto.
    + destruct H as [H | [<- | H]]; auto.
      * left. unfold set_has in *. rewrite existsb_app, H. reflexivity.
      * left. apply set_has_snoc.
Qed.

(** X13: what consume has returned is not delivered again: in the state it
    leaves, receive returns no message with the id of a consumed one, for
    any actor, limit and time. *)
Theorem consume_not_redelivered (st : A2AProtocol) (agentId : string)
    (limit now : Z) (m : A2AMessage) :
  In m (snd (consume st agentId limit now)) ->
  forall a limit' t m',
    In m' (receive (fst (consume st agentId limit now)) a limit' t) ->
    id m' <> id m.
Proof.
  intros Hm a limit' t m' Hm'. unfold consume in *. cbn [fst snd] in *.
  apply receive_in in Hm' as (_ & Hun & _).
  intros E. rewrite E in Hun.
  rewrite acknowledge_all_acked in Hun; [discriminate|].
  right. now apply in_map.
Qed.

Lemma consume_not_redelivered_witness :
  let m1 := snd (send constructor "m1" 0 "hippocrates" "atlas" [] 300000) in
  let m2 := snd (send constructor "m2" 1 "hippocrates" "atlas" [] 300000) in
  let st := fst (send (fst (send constructor "m1" 0 "hippocrates" "atlas" [] 300000))
                      "m2" 1 "hippocrates" "atlas" [] 300000) in
  In m1 (snd (consume st "atlas" 1 5))
  /\ In m2 (receive (fst (consume st "atlas" 1 5)) "atlas" 20 6)
  /\ id m2 <> id m1.
Proof.
  intros m1 m2 st.
  assert (H1 : In m1 (snd (consume st "atlas" 1 5))) by (vm_compute; left; reflexivity).
  assert (H2 : In m2 (receive (fst (consume st "atlas" 1 5)) "atlas" 20 6))
    by (vm_compute; left; reflexivity).
  exact (conj H1 (conj H2
           (consume_not_redelivered st "atlas" 1 5 m1 H1 "atlas" 20 6 m2 H2))).
Defined.
Lemma filter_implied {A} (p q : A -> bool) (l : list A) :
  (forall x, p x = true -> q x = true) ->
  List.filter p (List.filter q l) = List.filter p l.
Proof.
  intros H. induction l as [|x l IH]; [reflexivity|]. cbn [List.filter].
  destruct (q x) eqn:Eq; cbn [List.filter]; rewrite IH; [reflexivity|].
  destruct (p x) eqn:Ep; [|reflexivity]. apply H in Ep. congruence.
Qed.

Lemma filter_swap {A} (p q : A -> bool) (l : list A) :
  List.filter p (List.filter q l) = List.filter q (List.filter p l).
Proof.
  induction l as [|x l IH]; [reflexivity|]. cbn [List.filter].
  destruct (q x) eqn:Eq, (p x) eqn:Ep; cbn [List.filter]; rewrite ?Eq, ?Ep, IH;
    reflexivity.
Qed.

(** X14: a purge is invisible to receivers while at most 5000 ids are
    acknowledged: from the purge time on, receive returns after the purge
    exactly what it would have returned without it. *)
Theorem purge_invisible_to_receive (st : A2AProtocol) (now t limit : Z) (a : string) :
  Z.of_nat (List.length (acknowledged st)) <= 5000 ->
  now <= t ->
  receive (purgeExpired st now) a limit t = receive st a limit t.
Proof.
  intros Hack Ht. rewrite !receive_mailbox.
  assert (Ea : acknowledged (purgeExpired st now) = acknowledged st).
  { cbn [purgeExpired acknowledged].
    destruct (Z.ltb_spec 5000 (Z.of_nat (List.length (acknowledged st)))); [lia|].
    reflexivity. }
  assert (Em : mailbox a (purgeExpired st now)
               = List.filter (fun m => negb (is_expired now m)) (mailbox a st)).
  { unfold mailbox. cbn [purgeExpired queues]. rewrite map_get_purged.
    now destruct (map_get a (queues st)). }
  rewrite Ea, Em. f_equal.
  rewrite (filter_swap (fun m => negb (set_has (id m) (acknowledged st)))).
  rewrite filter_implied; [reflexivity|].
  intros x Hx. apply Z.ltb_lt in Hx. unfold is_expired.
  destruct (Z.leb_spec (ttl x) (now - timestamp x)); [lia | reflexivity].
Qed.

Lemma purge_invisible_to_receive_witness :
  let st := fst (send (fst (send constructor "m1" 0 "hippocrates" "atlas" [] 100))
                      "m2" 50 "hippocrates" "atlas" [] 100) in
  receive (purgeExpired st 120) "atlas" 20 130 = receive st "atlas" 20 130.
Proof.
  intros st. apply purge_invisible_to_receive; [cbn; lia | lia].
Defined.

Lemma map_has_map_set {V} a (v : V) qs : map_has a (map_set a v qs) = true.
Proof. unfold map_has. now rewrite map_get_map_set. Qed.

Lemma mailbox_registerAgent (st : A2AProtocol) (a a' : string) :
  mailbox a' (registerAgent st a) = mailbox a' st.
Proof.
  unfold mailbox, registerAgent, map_has.
  destruct (map_get a (queues st)) as [q|] eqn:E; [reflexivity|].
  cbn [queues]. destruct (String.eqb_spec a' a) as [-> | Hne].
  - now rewrite map_get_map_set, E.
  - now rewrite map_get_map_set_ne.
Qed.

(** X15: registerAgent never loses mail: it is idempotent, it leaves an
    already registered agent's bus untouched, every mailbox reads the same
    after it, and the agent is listed by getRegisteredAgents. *)
Theorem registerAgent_keeps_mail (st : A2AProtocol) (a : string) :
  registerAgent (registerAgent st a) a = registerAgent st a
  /\ (map_has a (queues st) = true -> registerAgent st a = st)
  /\ (forall a', mailbox a' (registerAgent st a) = mailbox a' st)
  /\ (forall a' limit t, receive (registerAgent st a) a' limit t = receive st a' limit t)
  /\ In a (getRegisteredAgents (registerAgent st a)).
Proof.
  assert (Hbox : forall a', mailbox a' (registerAgent st a) = mailbox a' st)
    by (intros a'; apply mailbox_registerAgent).
  split; [|split; [|split; [exact Hbox|split]]].
  - unfold registerAgent at 1. destruct (map_has a (queues (registerAgent st a))) eqn:E;
      [reflexivity|].
    unfold registerAgent in E. destruct (map_has a (queues st)) eqn:E0; [congruence|].
    cbn [queues] in E. now rewrite map_has_map_set in E.
  - intros H. unfold registerAgent. now rewrite H.
  - intros a' limit t. rewrite !receive_mailbox, Hbox.
    assert (Ea : acknowledged (registerAgent st a) = acknowledged st).
    { unfold registerAgent. now destruct (map_has a (queues st)). }
    now rewrite Ea.
  - unfold getRegisteredAgents, registerAgent, map_has.
    destruct (map_get a (queues st)) as [q|] eqn:E.
    + clear -E. induction (queues st) as [|[k q'] qs IH]; [discriminate|].
      cbn [map_get] in E. cbn [List.map fst].
      destruct (String.eqb_spec k a) as [-> | _]; [now left | right; now apply IH].
    + cbn [queues]. rewrite (map_set_fresh _ _ _ E), List.map_app.
      apply in_or_app. right. now left.
Qed.

Lemma registerAgent_keeps_mail_witness :
  let st := fst (send constructor "m1" 0 "hippocrates" "atlas" [] 300000) in
  registerAgent st "atlas" = st
  /\ In "apollo" (getRegisteredAgents (registerAgent st "apollo")).
Proof.
  intros st.
  destruct (registerAgent_keeps_mail st "atlas") as (_ & Hsame & _).
  destruct (registerAgent_keeps_mail st "apollo") as (_ & _ & _ & _ & Hin).
  split; [apply Hsame; reflexivity | exact Hin].
Defined.

Lemma map_get_deliver a from msg qs :
  map_get a (deliver from msg qs)
  = option_map (fun q => if negb (String.eqb a from) then q ++ [msg] else q)
               (map_get a qs).
Proof.
  induction qs as [|[k q] qs IH]; [reflexivity|].
  cbn [deliver List.map fst snd]. fold (deliver from msg qs).
  destruct (String.eqb_spec k a) as [-> | Hne].
  - destruct (negb (String.eqb a from)); cbn [map_get]; now rewrite String.eqb_refl.
  - destruct (negb (String.eqb k from)); cbn [map_get];
      (destruct (String.eqb_spec k a); [congruence | exact IH]).
Qed.

(** X16: broadcast reaches exactly the agents registered at that moment, the
    sender excepted: each of their mailboxes gets the message at its tail,
    the sender's mailbox and the set of registered agents stay as they were,
    and an agent without a mailbox gets nothing, also when it registers
    later. *)
Theorem broadcast_reaches_registered (st : A2AProtocol) (uuid from : string)
    (now ttl_ : Z) (body : Json.object) (a : string) :
  let st' := fst (broadcast st uuid now from body ttl_) in
  let msg := snd (broadcast st uuid now from body ttl_) in
  getRegisteredAgents st' = getRegisteredAgents st
  /\ mailbox from st' = mailbox from st
  /\ (map_has a (queues st) = true -> a <> from -> mailbox a st' = mailbox a st ++ [msg])
  /\ (map_has a (queues st) = false ->
      mailbox a st' = [] /\ mailbox a (registerAgent st' a) = []).
Proof.
  intros st' msg.
  assert (Hq : queues st' = deliver from msg (queues st)) by reflexivity.
  assert (Hbox : forall x, mailbox x st'
                 = match map_get x (queues st) with
                   | Some q => if negb (String.eqb x from) then q ++ [msg] else q
                   | None => []
                   end).
  { intros x. unfold mailbox. rewrite Hq, map_get_deliver.
    now destruct (map_get x (queues st)). }
  split; [|split; [|split]].
  - unfold getRegisteredAgents. rewrite Hq. unfold deliver. rewrite List.map_map.
    apply List.map_ext. intros [k q]. cbn [fst snd]. now destruct (negb _).
  - rewrite Hbox. unfold mailbox. rewrite String.eqb_refl. reflexivity.
  - intros Hreg Hne. rewrite Hbox. unfold mailbox, map_has in *.
    destruct (map_get a (queues st)); [|discriminate].
    destruct (String.eqb_spec a from); [contradiction | reflexivity].
  - intros Hreg.
    assert (E : mailbox a st' = []).
    { rewrite Hbox. unfold map_has in Hreg. now destruct (map_get a (queues st)). }
    split; [exact E|].
    now rewrite mailbox_registerAgent.
Qed.

Lemma broadcast_reaches_registered_witness :
  let st := registerAgent (registerAgent constructor "orchestrator") "atlas" in
  mailbox "atlas" (fst (broadcast st "b1" 0 "orchestrator" [] 1000))
  = [snd (broadcast st "b1" 0 "orchestrator" [] 1000)]
  /\ mailbox "apollo" (fst (broadcast st "b1" 0 "orchestrator" [] 1000)) = [].
Proof.
  intros st.
  destruct (broadcast_reaches_registered st "b1" "orchestrator" 0 1000 [] "atlas")
    as (_ & _ & H & _).
  destruct (broadcast_reaches_registered st "b1" "orchestrator" 0 1000 [] "apollo")
    as (_ & _ & _ & H').
  split; [apply H; [reflexivity | discriminate] | apply H'; reflexivity].
Defined.
Lemma find_some_in {A} (f : A -> bool) l x :
  List.find f l = Some x -> In x l /\ f x = true.
Proof.
  induction l as [|y l IH]; [discriminate|]. cbn [List.find].
  destruct (f y) eqn:E.
  - intros [= <-]. split; [now left | exact E].
  - intros H. apply IH in H as [H1 H2]. split; [now right | exact H2].
Qed.

Lemma find_original_some i qs o :
  find_original i qs = Some o -> In o (held qs) /\ id o = i.
Proof.
  induction qs as [|[k q] qs IH]; [discriminate|]. cbn [find_original].
  rewrite held_cons.
  destruct (List.find (fun m => String.eqb (id m) i) q) as [x|] eqn:E.
  - intros [= <-]. apply find_some_in in E as [Hin Hid].
    split; [apply in_or_app; now left | now apply String.eqb_eq].
  - intros H. apply IH in H as [Hin Hid]. split; [apply in_or_app; now right | exact Hid].
Qed.

Lemma find_original_held i qs :
  (exists x, In x (held qs) /\ id x = i) -> exists o, find_original i qs = Some o.
Proof.
  intros (x & Hx & Hid). destruct (find_original i qs) as [o|] eqn:E; [eauto|].
  exfalso. assert (Hnone : forall y, In y (held qs) -> has_id i y = false).
  { clear -E. induction qs as [|[k q] qs IH]; [intros y []|].
    cbn [find_original] in E. rewrite held_cons.
    destruct (List.find (fun m => String.eqb (id m) i) q) eqn:Ef; [discriminate|].
    intros y Hy. apply in_app_or in Hy as [Hy | Hy]; [|now apply IH].
    apply (List.find_none _ _ Ef y Hy). }
  specialize (Hnone x Hx). unfold has_id in Hnone.
  rewrite Hid, String.eqb_refl in Hnone. discriminate.
Qed.

Lemma map_get_set_member k v (o : Json.object) :
  map_get k (Json.set_member k v o) = Some v.
Proof.
  induction o as [|[k' v'] o IH]; cbn [Json.set_member map_get].
  - now rewrite String.eqb_refl.
  - destruct (String.eqb k' k) eqn:E; cbn [map_get]; [now rewrite String.eqb_refl|].
    now rewrite E.
Qed.

(** X17: when some mailbox holds a message with id originalMsgId, respond
    returns a reply of type response addressed to that message's sender, with
    payload.inReplyTo = originalMsgId (replacing any inReplyTo the caller
    passed), appended at the tail of the sender's mailbox; the original is
    acknowledged, so receive no longer returns it to anyone. *)
Theorem respond_replies_and_acknowledges (st : A2AProtocol)
    (originalMsgId uuid from : string) (now ttl_ : Z) (body : Json.object)
    (x : A2AMessage) :
  In x (held (queues st)) ->
  id x = originalMsgId ->
  exists original reply,
    find_original originalMsgId (queues st) = Some original
    /\ id original = originalMsgId
    /\ snd (respond st originalMsgId uuid now from body ttl_) = Some reply
    /\ toAgent reply = fromAgent original
    /\ fromAgent reply = from /\ type reply = response /\ id reply = uuid
    /\ map_get "inReplyTo" (payload reply) = Some (Json.JStr originalMsgId)
    /\ mailbox (fromAgent original) (fst (respond st originalMsgId uuid now from body ttl_))
       = mailbox (fromAgent original) st ++ [reply]
    /\ forall a limit t m,
         In m (receive (fst (respond st originalMsgId uuid now from body ttl_)) a limit t) ->
         id m <> originalMsgId.
Proof.
  intros Hx Hid.
  destruct (find_original_held originalMsgId (queues st)) as [o Ho]; [eauto|].
  destruct (find_original_some _ _ _ Ho) as [_ Hoid].
  unfold respond. rewrite Ho. cbn [fst snd].
  eexists o, _. split; [reflexivity|]. split; [exact Hoid|]. split; [reflexivity|].
  cbn [toAgent fromAgent type id payload].
  repeat (split; [reflexivity|]).
  split; [apply map_get_set_member|]. split.
  - unfold mailbox. cbn [acknowledge queues]. rewrite map_get_push_to.
    now destruct (map_get (fromAgent o) (queues st)).
  - intros a limit t m Hm. apply receive_in in Hm as (_ & Hun & _).
    cbn [acknowledge acknowledged] in Hun. intros E. rewrite E in Hun.
    unfold set_add in Hun.
    destruct (set_has originalMsgId (acknowledged st)) eqn:Es; [congruence|].
    rewrite set_has_snoc in Hun. discriminate.
Qed.

Lemma respond_replies_and_acknowledges_witness :
  let st := fst (send constructor "m1" 0 "hippocrates" "atlas" [] 300000) in
  exists reply,
    snd (respond st "m1" "r1" 5 "atlas" [("inReplyTo"%string, Json.JNull)] 300000)
    = Some reply
    /\ toAgent reply = "hippocrates"%string
    /\ payload reply = [("inReplyTo"%string, Json.JStr "m1")].
Proof.
  intros st.
  destruct (respond_replies_and_acknowledges st "m1" "r1" "atlas" 5 300000
              [("inReplyTo"%string, Json.JNull)]
              (snd (send constructor "m1" 0 "hippocrates" "atlas" [] 300000)))
    as (o & reply & Ho & _ & Hr & Hto & _).
  - vm_compute. left. reflexivity.
  - reflexivity.
  - exists reply. split; [exact Hr|].
    vm_compute in Ho. injection Ho as <-.
    vm_compute in Hr. injection Hr as <-. split; reflexivity.
Defined.

(* -- the acknowledged set forgets ---------------------------------------- *)

Lemma mailbox_purgeExpired (st : A2AProtocol) (a : string) (now : Z) :
  mailbox a (purgeExpired st now)
  = List.filter (fun m => negb (is_expired now m)) (mailbox a st).
Proof.
  unfold mailbox. cbn [purgeExpired queues]. rewrite map_get_purged.
  now destruct (map_get a (queues st)).
Qed.

Lemma slice0_all {A} (limit : Z) (l : list A) :
  Z.of_nat (List.length l) <= limit -> Js.slice0 limit l = l.
Proof.
  intros H. unfold Js.slice0. destruct (Z.leb_spec 0 limit); [|lia].
  apply List.firstn_all2. lia.
Qed.

(** X18: acknowledgement is forgotten when the acknowledged set is pruned.
    Take any message held in a mailbox and within its ttl, whose id is
    acknowledged but not among the newest 2500 of more than 5000 acknowledged
    ids.  Before the purge receive never returns it, whatever the limit and
    time.  After the purge it is delivered again: receive returns the first
    limit of the live messages whose ids the pruned set no longer holds, the
    message is one of them, and it is returned whenever the limit does not
    cut it off, for instance with a limit of at least the mailbox length;
    alone in its mailbox it is what receive returns for every positive
    limit. *)
Theorem pruned_acknowledgement_redelivers (st : A2AProtocol) (a : string)
    (m : A2AMessage) (now : Z) :
  In m (mailbox a st) ->
  now - timestamp m < ttl m ->
  set_has (id m) (acknowledged st) = true ->
  5000 < Z.of_nat (List.length (acknowledged st)) ->
  set_has (id m) (Js.slice_last 2500 (acknowledged st)) = false ->
  let redelivered :=
    List.filter (fun x => now - timestamp x <? ttl x)
      (List.filter
         (fun x => negb (set_has (id x) (Js.slice_last 2500 (acknowledged st))))
         (mailbox a st)) in
  (forall limit t, ~ In m (receive st a limit t))
  /\ (forall limit, receive (purgeExpired st now) a limit now
                    = Js.slice0 limit redelivered)
  /\ In m redelivered
  /\ (forall limit, Z.of_nat (List.length (mailbox a st)) <= limit ->
        In m (receive (purgeExpired st now) a limit now))
  /\ (mailbox a st = [m] -> forall limit, 0 < limit ->
        receive st a limit now = []
        /\ receive (purgeExpired st now) a limit now = [m]).
Proof.
  intros Hbox Hlive Hack Hbig Hold redelivered.
  assert (Hl : (now - timestamp m <? ttl m) = true) by now apply Z.ltb_lt.
  assert (Hafter : forall limit, receive (purgeExpired st now) a limit now
                                 = Js.slice0 limit redelivered).
  { intros limit. rewrite receive_mailbox, mailbox_purgeExpired.
    cbn [purgeExpired acknowledged].
    destruct (Z.ltb_spec 5000 (Z.of_nat (List.length (acknowledged st)))); [|lia].
    unfold redelivered. f_equal.
    rewrite (filter_swap _ (fun m0 => negb (is_expired now m0))).
    rewrite filter_implied; [reflexivity|].
    intros x Hx. unfold is_expired. apply Z.ltb_lt in Hx.
    destruct (Z.leb_spec (ttl x) (now - timestamp x)); [lia | reflexivity]. }
  assert (Hin : In m redelivered).
  { unfold redelivered. apply List.filter_In. split; [|exact Hl].
    apply List.filter_In. split; [exact Hbox | now rewrite Hold]. }
  split; [|split; [exact Hafter | split; [exact Hin | split]]].
  - intros limit t H. apply receive_in in H as (_ & H & _). congruence.
  - intros limit Hlimit. rewrite Hafter, slice0_all; [exact Hin|].
    pose proof (List.filter_length_le (fun x => now - timestamp x <? ttl x)
                  (List.filter
                     (fun x => negb (set_has (id x) (Js.slice_last 2500 (acknowledged st))))
                     (mailbox a st))) as H1.
    pose proof (List.filter_length_le
                  (fun x => negb (set_has (id x) (Js.slice_last 2500 (acknowledged st))))
                  (mailbox a st)) as H2.
    unfold redelivered. lia.
  - intros Hone limit Hlimit. split.
    + rewrite receive_mailbox, Hone. cbn [List.filter]. rewrite Hack.
      cbn [negb List.filter]. apply slice0_nil.
    + rewrite Hafter. unfold redelivered. rewrite Hone. cbn [List.filter].
      rewrite Hold. cbn [negb List.filter]. rewrite Hl.
      apply slice0_all. cbn [List.length]. lia.
Qed.

(* a bus whose acknowledged set holds m1 followed by 5000 other ids *)
Definition crowded : A2AProtocol :=
  let st := fst (send constructor "m1" 0 "hippocrates" "atlas" [] 300000) in
  {| queues := queues st;
     acknowledged := "m1"%string
                     :: List.map (fun n => Js.string_of_Z (Z.of_nat n))
                                 (seq 0 (Z.to_nat 5000));
     emitted := emitted st |}.

Lemma pruned_acknowledgement_redelivers_witness :
  receive crowded "atlas" 20 60000 = []
  /\ receive (purgeExpired crowded 60000) "atlas" 20 60000
     = [snd (send constructor "m1" 0 "hippocrates" "atlas" [] 300000)].
Proof.
  pose proof (pruned_acknowledgement_redelivers crowded "atlas"
                (snd (send constructor "m1" 0 "hippocrates" "atlas" [] 300000)) 60000)
    as H.
  cbv zeta in H.
  assert (Hheld : In (snd (send constructor "m1" 0 "hippocrates" "atlas" [] 300000))
                     (mailbox "atlas" crowded)) by (left; reflexivity).
  assert (Hlive : 60000 - timestamp (snd (send constructor "m1" 0 "hippocrates" "atlas"
                                            [] 300000))
                  < ttl (snd (send constructor "m1" 0 "hippocrates" "atlas" [] 300000)))
    by (cbn; lia).
  assert (Hack : set_has (id (snd (send constructor "m1" 0 "hippocrates" "atlas" []
                                     300000)))
                         (acknowledged crowded) = true) by reflexivity.
  assert (Hbig : 5000 < Z.of_nat (List.length (acknowledged crowded)))
    by (vm_compute; reflexivity).
  assert (Hold : set_has (id (snd (send constructor "m1" 0 "hippocrates" "atlas" []
                                     300000)))
                         (Js.slice_last 2500 (acknowledged crowded)) = false)
    by (vm_compute; reflexivity).
  destruct (H Hheld Hlive Hack Hbig Hold) as (_ & _ & _ & _ & Hone).
  apply (Hone eq_refl 20). lia.
Defined.

(** X19: receive returns at most getQueueDepth messages, and at most limit
    when limit is not negative; getQueueDepth also counts messages whose ttl
    has elapsed until a purge drops them. *)
Theorem receive_bounded_by_depth (st : A2AProtocol) (a : string) (limit now : Z) :
  (List.length (receive st a limit now) <= getQueueDepth st a)%nat
  /\ (0 <= limit -> (List.length (receive st a limit now) <= Z.to_nat limit)%nat)
  /\ (Z.of_nat (List.length (acknowledged st)) <= 5000 ->
      getQueueDepth (purgeExpired st now) a
      = List.length (List.filter (fun m => negb (is_expired now m))
                       (List.filter (fun m => negb (set_has (id m) (acknowledged st)))
                          (mailbox a st)))).
Proof.
  split; [|split].
  - rewrite receive_mailbox. unfold getQueueDepth. fold (mailbox a st).
    set (unacked := List.filter _ (mailbox a st)).
    transitivity (List.length (List.filter (fun m => now - timestamp m <? ttl m) unacked)).
    + unfold Js.slice0. destruct (0 <=? limit); rewrite List.length_firstn; lia.
    + apply List.filter_length_le.
  - intros Hl. rewrite receive_mailbox. unfold Js.slice0.
    destruct (Z.leb_spec 0 limit); [|lia]. rewrite List.length_firstn. lia.
  - intros Hack. unfold getQueueDepth.
    assert (Em : match map_get a (queues (purgeExpired st now)) with
                 | Some q => q | None => [] end
                 = List.filter (fun m => negb (is_expired now m)) (mailbox a st)).
    { unfold mailbox. cbn [purgeExpired queues]. rewrite map_get_purged.
      now destruct (map_get a (queues st)). }
    rewrite Em. cbn [purgeExpired acknowledged].
    destruct (Z.ltb_spec 5000 (Z.of_nat (List.length (acknowledged st)))); [lia|].
    now rewrite filter_swap.
Qed.

Lemma receive_bounded_by_depth_witness :
  let st := fst (send (fst (send constructor "m1" 0 "hippocrates" "atlas" [] 10))
                      "m2" 1 "hippocrates" "atlas" [] 300000) in
  (List.length (receive st "atlas" 1 5) <= 1)%nat
  /\ getQueueDepth st "atlas" = 2%nat
  /\ getQueueDepth (purgeExpired st 50) "atlas" = 1%nat.
Proof.
  intros st.
  destruct (receive_bounded_by_depth st "atlas" 1 5) as (_ & Hlimit & _).
  destruct (receive_bounded_by_depth st "atlas" 1 50) as (_ & _ & Hdepth).
  split; [apply Hlimit; lia|]. split; [reflexivity|].
  rewrite Hdepth; [reflexivity | vm_compute; discriminate].
Defined.
End A2AMoreProofs.

(* --------------------------------------------------------------------- *)
(*  Daemon and orchestrator: no task lost, handler lookup, the log        *)
(* --------------------------------------------------------------------- *)

Module DaemonRunsProofs.
Import Types Daemon DaemonRuns DaemonProofs.






End DaemonRunsProofs.

Module OrchestratorAgentsProofs.
Import Types Orchestrator OrchestratorAgents.

Lemma lookup_in k m v : lookup k m = Some v -> In v (List.map snd m).
Proof.
  induction m as [|[k' v'] m IH]; [discriminate|]. cbn [lookup List.map snd].
  destruct (String.eqb k' k); [intros [= ->]; now left | intros H; right; auto].
Qed.

Lemma lookup_routed k m : In k (List.map fst m) -> exists v, lookup k m = Some v.
Proof.
  induction m as [|[k' v'] m IH]; [intros []|]. cbn [lookup List.map fst].
  destruct (String.eqb_spec k' k); [eauto|]. intros [E | H]; [contradiction | auto].
Qed.

(* a role is served when it is the orchestrator itself or spawnSubAgent
   finds a config named after the key it looked up *)
Definition served (r : string) : bool :=
  String.eqb r "orchestrator"
  || match spawn_config r with
     | inr c => String.eqb (role c) (configKey r)
     | inl _ => false
     end.

(** X21: handler selection is complete over the routing table: for every
    task whose type is one of the routed task types, routeTask returns
    orchestrator or a role for which spawnSubAgent finds a sub-agent config
    (self_eval borrowing the clinical specialist's), so the early failure
    'No config for agent role' is never taken for a routed task. *)
Theorem routed_roles_have_configs (task : Task) :
  In (type task) (List.map fst routing) ->
  routeTask task = "orchestrator"%string
  \/ exists c, spawn_config (routeTask task) = inr c
               /\ role c = configKey (routeTask task).
Proof.
  intros Hin. destruct (lookup_routed _ _ Hin) as [r Hr].
  unfold routeTask. rewrite Hr. apply lookup_in in Hr.
  assert (Hall : List.forallb served (List.map snd routing) = true)
    by (vm_compute; reflexivity).
  rewrite List.forallb_forall in Hall. specialize (Hall r Hr).
  unfold served in Hall. apply orb_true_iff in Hall as [H | H].
  - left. f_equal. now apply String.eqb_eq.
  - right. destruct (spawn_config r) as [|c]; [discriminate|].
    exists c. split; [reflexivity | now apply String.eqb_eq].
Qed.

Definition trade : Task :=
  {| id := "t1"; type := "trade_execute"; priority := high; title := "trade";
     description := ""; assignedAgent := None; payload := []; dependencies := [];
     createdAt := 0; startedAt := None; completedAt := None; result := None |}.

Lemma routed_roles_have_configs_witness :
  exists c, spawn_config (routeTask trade) = inr c /\ role c = "trading_ops"%string.
Proof.
  destruct (routed_roles_have_configs trade) as [H | (c & H & Hr)].
  - vm_compute. repeat (first [left; reflexivity | right]).
  - vm_compute in H. discriminate.
  - exists c. split; [exact H | exact Hr].
Defined.

(** X22: every executeTask emits task:started and then exactly one closing
    event, task:completed when the returned result has success = true and
    task:failed with its errors otherwise; the task leaves with assignedAgent
    set to what routeTask returned, and a result the handler returns is
    passed on with only executionTimeMs replaced by the measured time. *)
Theorem executeTask_lifecycle (handler : AgentRole -> Task -> outcome)
    (clk : clock) (task : Task) :
  let out := executeTask handler clk task in
  events out
  = [ task_started (id task);
      if success (returned out) then task_completed (id task) (returned out)
      else task_failed (id task) (errors (returned out)) ]
  /\ assignedAgent (task_after out) = Some (routeTask task)
  /\ id (task_after out) = id task
  /\ executionTimeMs (returned out) = at_end clk - at_start clk
  /\ (forall r, handler (routeTask task) (OrchestratorProofs.dispatched clk task)
                = Returned r ->
        success (returned out) = success r
        /\ Types.output (returned out) = Types.output r
        /\ errors (returned out) = errors r
        /\ tokensUsed (returned out) = tokensUsed r
        /\ subTasksSpawned (returned out) = subTasksSpawned r).
Proof.
  intros out. unfold out, executeTask.
  change (routeTask (with_started task (at_started clk))) with (routeTask task).
  fold (OrchestratorProofs.dispatched clk task).
  destruct (handler (routeTask task) (OrchestratorProofs.dispatched clk task)) as [r | err];
    cbn [task_after returned events assignedAgent with_done with_agent id
         success errors executionTimeMs with_time with_started].
  - do 4 (split; [reflexivity|]). intros r' [= <-]. repeat split; reflexivity.
  - do 4 (split; [reflexivity|]). intros r' [=].
Qed.

Lemma executeTask_lifecycle_witness :
  let clk := {| at_start := 100; at_started := 101; at_completed := 129; at_end := 130 |} in
  let r := {| success := true; Types.output := Json.JStr "filled"; tokensUsed := 7;
              executionTimeMs := 0; subTasksSpawned := ["s1"%string]; errors := [] |} in
  let out := executeTask (fun _ _ => Returned r) clk trade in
  success (returned out) = true
  /\ Types.output (returned out) = Json.JStr "filled"
  /\ subTasksSpawned (returned out) = ["s1"%string]
  /\ executionTimeMs (returned out) = 30
  /\ events out = [task_started "t1"; task_completed "t1" (returned out)].
Proof.
  intros clk r out.
  pose proof (executeTask_lifecycle (fun _ _ => Returned r) clk trade) as H.
  cbv zeta in H. fold out in H. destruct H as (Hev & _ & _ & Hms & Hret).
  destruct (Hret r eq_refl) as (Hs & Ho & _ & _ & Hsub).
  split; [exact Hs|]. split; [exact Ho|]. split; [exact Hsub|]. split; [exact Hms|].
  rewrite Hev, Hs. reflexivity.
Defined.

(* The keys spawnSubAgent can be asked for are never names that an object
   literal inherits. *)
Lemma configKey_routed (task : Task) :
  Js.inherited (configKey (routeTask task)) = false.
Proof.
  unfold routeTask. destruct (lookup (type task) routing) as [r|] eqn:Hr.
  - apply lookup_in in Hr.
    assert (Hall : List.forallb (fun r => negb (Js.inherited (configKey (RoleName r))))
                                (List.map snd routing) = true)
      by (vm_compute; reflexivity).
    rewrite List.forallb_forall in Hall. specialize (Hall r Hr).
    now apply negb_true_iff in Hall.
  - destruct (Js.inherited (type task)) eqn:Hin; [|reflexivity].
    unfold Js.inherited in Hin. rewrite existsb_exists in Hin.
    destruct Hin as (x & Hx & E). apply String.eqb_eq in E. subst x.
    unfold Js.object_prototype_members in Hx. cbn [In] in Hx.
    repeat (destruct Hx as [<- | Hx]; [vm_compute; reflexivity|]). destruct Hx.
Qed.

Lemma lookup_unrouted k m : ~ In k (List.map fst m) -> lookup k m = None.
Proof.
  induction m as [|[k' v'] m IH]; [reflexivity|]. cbn [lookup List.map fst].
  intros H. destruct (String.eqb_spec k' k) as [E | _].
  - exfalso. apply H. now left.
  - apply IH. intros Hin. apply H. now right.
Qed.

Lemma inherited_no_config k :
  Js.inherited k = true ->
  spawn_config (InheritedMember k)
  = inl {| success := false; Types.output := Json.JNull; tokensUsed := 0;
           executionTimeMs := 0; subTasksSpawned := [];
           errors := ["No config for agent role: " +:+ Js.string_of_member k] |}.
Proof.
  unfold Js.inherited. rewrite existsb_exists. intros (x & Hx & E).
  apply String.eqb_eq in E. subst x. unfold Js.object_prototype_members in Hx.
  cbn [In] in Hx.
  repeat (destruct Hx as [<- | Hx]; [vm_compute; reflexivity|]). destruct Hx.
Qed.

(** X26: a task type outside the routing table falls back to the orchestrator
    only when it names nothing an object literal inherits.  A type such as
    constructor or toString is routed to the inherited member, which is not
    the string orchestrator: executeTask takes the sub-agent path, finds no
    config and returns success = false with the one error 'No config for
    agent role: ' followed by the member's text, emitting task:failed.  Every
    other unrouted type is executed directly by the orchestrator. *)
Theorem unrouted_type_fallback (executeDirect : Task -> outcome)
    (spawned : SubAgentConfig -> Task -> outcome) (clk : clock) (task : Task) :
  ~ In (type task) (List.map fst routing) ->
  let out := executeTask (dispatch executeDirect spawned) clk task in
  (Js.inherited (type task) = true ->
     routeTask task = InheritedMember (type task)
     /\ assignedAgent (task_after out) = Some (InheritedMember (type task))
     /\ success (returned out) = false
     /\ errors (returned out)
        = ["No config for agent role: " +:+ Js.string_of_member (type task)]
     /\ events out
        = [ task_started (id task); task_failed (id task) (errors (returned out)) ])
  /\ (Js.inherited (type task) = false ->
      routeTask task = "orchestrator"%string
      /\ forall r, executeDirect (OrchestratorProofs.dispatched clk task) = Returned r ->
           returned out = with_time r (at_end clk - at_start clk)).
Proof.
  intros Hout out. apply lookup_unrouted in Hout.
  assert (Hroute : routeTask task
                   = if Js.inherited (type task) then InheritedMember (type task)
                     else RoleName "orchestrator").
  { unfold routeTask. now rewrite Hout. }
  unfold out, executeTask.
  change (routeTask (with_started task (at_started clk))) with (routeTask task).
  split; intros Hin; rewrite Hroute, Hin.
  - split; [reflexivity|]. cbn [dispatch]. rewrite (inherited_no_config _ Hin).
    cbn [task_after returned events assignedAgent with_done with_agent
         success errors with_time].
    repeat split; reflexivity.
  - split; [reflexivity|]. intros r Hr.
    unfold OrchestratorProofs.dispatched in Hr. rewrite Hroute, Hin in Hr.
    cbn [dispatch]. rewrite String.eqb_refl, Hr. reflexivity.
Qed.

Lemma unrouted_type_fallback_witness :
  let task := {| id := "t2"; type := "constructor"; priority := low; title := "probe";
                 description := ""; assignedAgent := None; payload := [];
                 dependencies := []; createdAt := 0; startedAt := None;
                 completedAt := None; result := None |} in
  let clk := {| at_start := 100; at_started := 101; at_completed := 129; at_end := 130 |} in
  let out := executeTask (dispatch (fun _ => Threw (ErrorObject "unused"))
                                   (fun _ _ => Threw (ErrorObject "unused"))) clk task in
  success (returned out) = false
  /\ errors (returned out)
     = ["No config for agent role: function Object() { [native code] }"%string].
Proof.
  intros task clk out.
  pose proof (unrouted_type_fallback (fun _ => Threw (ErrorObject "unused"))
                (fun _ _ => Threw (ErrorObject "unused")) clk task) as H.
  assert (Hout : ~ In (type task) (List.map fst routing)).
  { vm_compute. intuition discriminate. }
  specialize (H Hout). cbv zeta in H. fold out in H.
  destruct H as [H _]. destruct (H eq_refl) as (_ & _ & Hs & He & _).
  split; [exact Hs | exact He].
Defined.
End OrchestratorAgentsProofs.
